(** * RAGFlow object-storage client: [rag/utils/minio_conn.py]

    A shallow embedding of the [RAGFlowMinio] class.  The class wraps a
    MinIO client handle ([self.conn]); every method is translated to a
    computation in a small monad that threads the client state, may raise a
    Python exception, and emits the observable events of the run (remote
    calls, log records, connection set-up, pauses). *)

From stdpp Require Import gmap strings list.
From Stdlib Require Import Strings.Byte.

Abbreviation bytes := (list byte).

(** ** Exceptions

    Only [Exception] subclasses matter to the handlers of the module:
    [S3Error] (with its [code]) and everything else.  [text] is [str(e)]. *)

Inductive exn : Type :=
| S3Error (code : string) (text : string)
| OtherError (text : string).

Definition str (e : exn) : string :=
  match e with
  | S3Error _ text => text
  | OtherError text => text
  end.

Inductive outcome (A : Type) : Type :=
| Ret (a : A)
| Raise (e : exn).
Arguments Ret {A} a.
Arguments Raise {A} e.

(** ** Requests sent through the connection *)

Inductive request : Type :=
| BucketExists (bucket : string)
| MakeBucket (bucket : string)
| PutObject (bucket key : string) (data : bytes) (len : nat)
| RemoveObject (bucket key : string)
| GetObject (bucket key : string)
| StatObject (bucket key : string)
| PresignedUrl (method bucket key : string) (expires : nat)
| ListObjects (bucket : string) (recursive : bool)
| RemoveBucket (bucket : string)
| CopyObject (dest_bucket dest_key src_bucket src_key : string).

(** The attribute looked up on [self.conn] for each request. *)
Definition attr_of (rq : request) : string :=
  match rq with
  | BucketExists _ => "bucket_exists"
  | MakeBucket _ => "make_bucket"
  | PutObject _ _ _ _ => "put_object"
  | RemoveObject _ _ => "remove_object"
  | GetObject _ _ => "get_object"
  | StatObject _ _ => "stat_object"
  | PresignedUrl _ _ _ _ => "get_presigned_url"
  | ListObjects _ _ => "list_objects"
  | RemoveBucket _ => "remove_bucket"
  | CopyObject _ _ _ _ => "copy_object"
  end.

(** The bucket names a request carries. *)
Definition buckets_of (rq : request) : list string :=
  match rq with
  | BucketExists b | MakeBucket b | PutObject b _ _ _ | RemoveObject b _
  | GetObject b _ | StatObject b _ | PresignedUrl _ b _ _ | ListObjects b _
  | RemoveBucket b => [b]
  | CopyObject d _ s _ => [d; s]
  end.

(** ** Observable events *)

Definition handle := nat.

Inductive event : Type :=
| Call (h : handle) (rq : request)
| Raised (e : exn)
| Log (exc_info : bool) (msg : string)
| Connect (host access_key secret_key : string) (secure : bool)
| Discard (h : handle)
| Sleep (seconds : nat).

(** ** The world: remote service, client state, and failure oracles

    [objects] is the content of the remote service (bucket ↦ key ↦ bytes).
    [conn] is [self.conn]; a handle is the serial number of the [Minio(...)]
    construction that produced it.  [fault] tells, for the n-th remote call
    ever issued, whether the transport or the service fails it and how;
    [refuse] does the same for the n-th [Minio(...)] construction. *)

Record world : Type := World {
  objects : gmap string (gmap string bytes);
  conn : option handle;
  clock : nat;
  fault : nat -> option exn;
  opened : nat;
  refuse : nat -> option exn
}.

Definition set_objects (s : gmap string (gmap string bytes)) (w : world) : world :=
  World s (conn w) (clock w) (fault w) (opened w) (refuse w).
Definition set_conn (c : option handle) (w : world) : world :=
  World (objects w) c (clock w) (fault w) (opened w) (refuse w).
Definition tick (w : world) : world :=
  World (objects w) (conn w) (S (clock w)) (fault w) (opened w) (refuse w).
Definition count_open (w : world) : world :=
  World (objects w) (conn w) (clock w) (fault w) (S (opened w)) (refuse w).

(** ** The monad *)

Record run (A : Type) : Type := Run {
  res : outcome A;
  final : world;
  emitted : list event
}.
Arguments Run {A} res final emitted.
Arguments res {A} r.
Arguments final {A} r.
Arguments emitted {A} r.

Definition M (A : Type) : Type := world -> run A.

Definition ret {A} (a : A) : M A := fun w => Run (Ret a) w [].
Definition emit (ev : event) : M unit := fun w => Run (Ret tt) w [ev].

Definition bind {A B} (m : M A) (k : A -> M B) : M B :=
  fun w =>
    match m w with
    | Run (Ret a) w1 evs1 =>
        match k a w1 with
        | Run r w2 evs2 => Run r w2 (evs1 ++ evs2)
        end
    | Run (Raise e) w1 evs1 => Run (Raise e) w1 evs1
    end.

(** [try: body / except Exception as e: handler e] *)
Definition try_except {A} (body : M A) (handler : exn -> M A) : M A :=
  fun w =>
    match body w with
    | Run (Ret a) w1 evs1 => Run (Ret a) w1 evs1
    | Run (Raise e) w1 evs1 =>
        match handler e w1 with
        | Run r w2 evs2 => Run r w2 (evs1 ++ evs2)
        end
    end.

Declare Scope py_scope.
Delimit Scope py_scope with py.
Notation "'let*' x ':=' m 'in' k" := (bind m (fun x => k))
  (at level 10, x name, m at level 100, k at level 200) : py_scope.
Notation "m '>>' k" := (bind m (fun _ => k))
  (at level 100, k at level 200, right associativity) : py_scope.
Open Scope py_scope.

(** [for _ in range(n): body], where the body either returns from the
    enclosing function ([Some a]) or falls through to the next iteration
    ([None]); [orelse] is the code after the loop. *)
Fixpoint for_range {A} (n : nat) (body : M (option A)) (orelse : M A) : M A :=
  match n with
  | 0 => orelse
  | S n' => let* r := body in
            match r with
            | Some a => ret a
            | None => for_range n' body orelse
            end
  end.

(** [for x in xs: body x] *)
Fixpoint for_each {A} (xs : list A) (body : A -> M unit) : M unit :=
  match xs with
  | [] => ret tt
  | x :: xs' => body x >> for_each xs' body
  end.

Definition logging_exception (msg : string) : M unit := emit (Log true msg).
Definition logging_error (msg : string) : M unit := emit (Log false msg).
Definition time_sleep (seconds : nat) : M unit := emit (Sleep seconds).

(** [raise e] *)
Definition raise {A} (e : exn) : M A := fun w => Run (Raise e) w [Raised e].

Definition get_conn : M (option handle) := fun w => Run (Ret (conn w)) w [].
Definition put_conn (c : option handle) : M unit :=
  fun w => Run (Ret tt) (set_conn c w) [].

(** ** The remote service

    S3 semantics of the object store the client talks to: buckets hold keyed
    byte sequences; a missing bucket or key is reported with the error codes
    [NoSuchBucket] and [NoSuchKey]. *)
Module S3.

Abbreviation store := (gmap string (gmap string bytes)).

Definition NoSuchBucket : exn :=
  S3Error "NoSuchBucket" "The specified bucket does not exist".
Definition NoSuchKey : exn :=
  S3Error "NoSuchKey" "The specified key does not exist".
Definition BucketAlreadyOwnedByYou : exn :=
  S3Error "BucketAlreadyOwnedByYou" "Your previous request to create the named bucket succeeded and you already own it".
Definition BucketNotEmpty : exn :=
  S3Error "BucketNotEmpty" "The bucket you tried to delete is not empty".
Definition InvalidRequest : exn :=
  S3Error "InvalidRequest" "This copy request is illegal because it is trying to copy an object to itself without changing the object's metadata, storage class, website redirect location or encryption attributes.".

Record write_result : Type := WriteResult {
  wr_bucket : string;
  wr_object : string
}.

Record object_stat : Type := ObjectStat {
  st_bucket : string;
  st_object : string;
  st_size : nat
}.

Record url : Type := Url {
  url_host : string;
  url_method : string;
  url_bucket : string;
  url_object : string;
  url_expires : nat
}.

Definition bucket_exists (b : string) (s : store) : outcome bool * store :=
  match s !! b with
  | Some _ => (Ret true, s)
  | None => (Ret false, s)
  end.

Definition make_bucket (b : string) (s : store) : outcome unit * store :=
  match s !! b with
  | Some _ => (Raise BucketAlreadyOwnedByYou, s)
  | None => (Ret tt, <[b := ∅]> s)
  end.

Definition put_object (b k : string) (data : bytes) (s : store)
  : outcome write_result * store :=
  match s !! b with
  | Some objs => (Ret (WriteResult b k), <[b := <[k := data]> objs]> s)
  | None => (Raise NoSuchBucket, s)
  end.

Definition remove_object (b k : string) (s : store) : outcome unit * store :=
  match s !! b with
  | Some objs => (Ret tt, <[b := delete k objs]> s)
  | None => (Raise NoSuchBucket, s)
  end.

Definition get_object (b k : string) (s : store) : outcome bytes * store :=
  match s !! b with
  | Some objs =>
      match objs !! k with
      | Some data => (Ret data, s)
      | None => (Raise NoSuchKey, s)
      end
  | None => (Raise NoSuchBucket, s)
  end.

Definition stat_object (b k : string) (s : store)
  : outcome object_stat * store :=
  match s !! b with
  | Some objs =>
      match objs !! k with
      | Some data => (Ret (ObjectStat b k (length data)), s)
      | None => (Raise NoSuchKey, s)
      end
  | None => (Raise NoSuchBucket, s)
  end.

Definition list_objects (b : string) (s : store)
  : outcome (list string) * store :=
  match s !! b with
  | Some objs => (Ret (map_to_list objs).*1, s)
  | None => (Raise NoSuchBucket, s)
  end.

Definition remove_bucket (b : string) (s : store) : outcome unit * store :=
  match s !! b with
  | Some objs =>
      if decide (objs = ∅) then (Ret tt, delete b s)
      else (Raise BucketNotEmpty, s)
  | None => (Raise NoSuchBucket, s)
  end.

(** A copy names no new metadata, so the service refuses to copy an object
    onto itself. *)
Definition copy_object (db dk sb sk : string) (s : store)
  : outcome write_result * store :=
  match s !! sb with
  | Some sobjs =>
      match sobjs !! sk with
      | Some data =>
          match s !! db with
          | Some dobjs =>
              if decide ((db, dk) = (sb, sk)) then (Raise InvalidRequest, s)
              else (Ret (WriteResult db dk), <[db := <[dk := data]> dobjs]> s)
          | None => (Raise NoSuchBucket, s)
          end
      | None => (Raise NoSuchKey, s)
      end
  | None => (Raise NoSuchBucket, s)
  end.

(** The location of a bucket, which the client asks for before it signs a URL
    for it. *)
Definition bucket_location (b : string) (s : store) : outcome unit * store :=
  match s !! b with
  | Some _ => (Ret tt, s)
  | None => (Raise NoSuchBucket, s)
  end.

End S3.

(** ** The MinIO client library, as used through [self.conn] *)
Module Minio.

(** [self.conn.<attr>(...)]: with [self.conn = None] the attribute lookup
    raises before anything is sent; otherwise the request goes out on the
    handle, and either the oracle fails it or the service answers.

    The request is sent with the names it is given.  The client itself refuses
    some names before it sends anything (see [accepted_bucket] and
    [accepted_key] below); the properties that need a call to go through
    assume names it accepts. *)
Definition call {A} (rq : request)
    (serve : gmap string (gmap string bytes)
             -> outcome A * gmap string (gmap string bytes)) : M A :=
  fun w =>
    match conn w with
    | None =>
        let e := OtherError ("'NoneType' object has no attribute '"
                             ++ attr_of rq ++ "'") in
        Run (Raise e) w [Raised e]
    | Some h =>
        match fault w (clock w) with
        | Some e => Run (Raise e) (tick w) [Call h rq; Raised e]
        | None =>
            let '(r, s') := serve (objects w) in
            Run r (set_objects s' (tick w))
                (Call h rq :: match r with
                              | Ret _ => []
                              | Raise e => [Raised e]
                              end)
        end
    end.

Definition bucket_exists (b : string) : M bool :=
  call (BucketExists b) (S3.bucket_exists b).
Definition make_bucket (b : string) : M unit :=
  call (MakeBucket b) (S3.make_bucket b).
Definition put_object (b k : string) (data : bytes) (len : nat)
  : M S3.write_result :=
  call (PutObject b k data len) (S3.put_object b k (take len data)).
Definition remove_object (b k : string) : M unit :=
  call (RemoveObject b k) (S3.remove_object b k).
(** [get_object(...)] followed by [.read()] of the response. *)
Definition get_object_read (b k : string) : M bytes :=
  call (GetObject b k) (S3.get_object b k).
Definition stat_object (b k : string) : M S3.object_stat :=
  call (StatObject b k) (S3.stat_object b k).
(** The expiry of a presigned URL, in seconds: between one second and seven
    days. *)
Definition expiry_ok (expires : nat) : bool :=
  (1 <=? expires) && (N.of_nat expires <=? 604800)%N.
Definition bad_expiry : exn :=
  OtherError "expires must be between 1 second to 7 days".
(** [get_presigned_url(method, bucket, object, expires)]: the client checks
    the expiry, asks the service where the bucket is, and signs the URL
    itself. *)
Definition get_presigned_url (host method b k : string) (expires : nat)
  : M S3.url :=
  let* c := get_conn in
  match c with
  | Some _ =>
      if expiry_ok expires then
        call (PresignedUrl method b k expires) (S3.bucket_location b) >>
        ret (S3.Url host method b k expires)
      else raise bad_expiry
  | None => call (PresignedUrl method b k expires)
                 (fun s => (Ret (S3.Url host method b k expires), s))
  end.
Definition list_objects (b : string) (recursive : bool) : M (list string) :=
  call (ListObjects b recursive) (S3.list_objects b).
Definition remove_bucket (b : string) : M unit :=
  call (RemoveBucket b) (S3.remove_bucket b).
Definition copy_object (db dk sb sk : string) : M S3.write_result :=
  call (CopyObject db dk sb sk) (S3.copy_object db dk sb sk).

(** [Minio(host, access_key=..., secret_key=..., secure=...)] *)
Definition new (host access_key secret_key : string) (secure : bool)
  : M handle :=
  fun w =>
    let ev := Connect host access_key secret_key secure in
    match refuse w (opened w) with
    | Some e => Run (Raise e) (count_open w) [ev; Raised e]
    | None => Run (Ret (opened w)) (count_open w) [ev]
    end.

(** Truth value of the object returned by [stat_object]: a plain object
    without [__bool__] or [__len__]. *)
Definition truth (st : S3.object_stat) : bool := true.

End Minio.

(** ** Settings read by the module *)

Record settings : Type := Settings {
  MINIO_host : string;
  MINIO_user : string;
  MINIO_password : string;
  MINIO_BUCKET_PREFIX : option string;
  (** [os.getenv('MINIO_HEALTH_BUCKET')] *)
  MINIO_HEALTH_BUCKET : option string
}.

(** [x or ""] on an optional string. *)
Definition or_empty (x : option string) : string :=
  match x with
  | Some s => s
  | None => ""
  end.

(** Truth value of a string: non-empty. *)
Definition nonempty (s : string) : bool :=
  match s with
  | EmptyString => false
  | String _ _ => true
  end.

(** [e.code in ["NoSuchKey", "NoSuchBucket", "ResourceNotFound"]] *)
Definition not_found_code (code : string) : bool :=
  existsb (String.eqb code) ["NoSuchKey"; "NoSuchBucket"; "ResourceNotFound"].

(** ** The class [RAGFlowMinio] *)
Module RAGFlowMinio.
Section Methods.

Variable cfg : settings.

Definition _with_prefix (bucket : string) : string :=
  let prefix := or_empty (MINIO_BUCKET_PREFIX cfg) in
  if nonempty prefix then prefix ++ "-" ++ bucket else bucket.

Definition __close__ : M unit :=
  let* c := get_conn in
  match c with
  | Some h => emit (Discard h) >> put_conn None
  | None => put_conn None
  end.

Definition __open__ : M unit :=
  try_except
    (let* c := get_conn in
     match c with
     | Some _ => __close__
     | None => ret tt
     end)
    (fun _ => ret tt) >>
  try_except
    (let* h := Minio.new (MINIO_host cfg) (MINIO_user cfg)
                         (MINIO_password cfg) false in
     put_conn (Some h))
    (fun _ => logging_exception ("Fail to connect " ++ MINIO_host cfg ++ " ")).

Definition __init__ : M unit :=
  put_conn None >> __open__.

Definition health : M S3.write_result :=
  let bucket := or_empty (MINIO_HEALTH_BUCKET cfg) in
  let fnm := "txtxtxtxt1" in
  let binary := [x5f; x74; x40; x40; x40; x31] in
  let pbucket := _with_prefix bucket in
  let* ex := Minio.bucket_exists pbucket in
  (if negb ex then Minio.make_bucket pbucket else ret tt) >>
  let* r := Minio.put_object pbucket fnm binary (length binary) in
  ret r.

Definition put (bucket fnm : string) (binary : bytes)
    (tenant_id : option string) : M (option S3.write_result) :=
  for_range 3
    (try_except
       (let pbucket := _with_prefix bucket in
        let* ex := Minio.bucket_exists pbucket in
        (if negb ex then Minio.make_bucket pbucket else ret tt) >>
        let* r := Minio.put_object pbucket fnm binary (length binary) in
        ret (Some (Some r)))
       (fun _ =>
          logging_exception ("Fail to put " ++ bucket ++ "/" ++ fnm ++ ":") >>
          __open__ >>
          time_sleep 1 >>
          ret None))
    (ret None).

Definition rm (bucket fnm : string) (tenant_id : option string) : M unit :=
  try_except
    (let pbucket := _with_prefix bucket in
     Minio.remove_object pbucket fnm)
    (fun _ =>
       logging_exception ("Fail to remove " ++ bucket ++ "/" ++ fnm ++ ":")).

Definition get (bucket filename : string) (tenant_id : option string)
  : M (option bytes) :=
  let pbucket := _with_prefix bucket in
  for_range 1
    (try_except
       (let* data := Minio.get_object_read pbucket filename in
        ret (Some (Some data)))
       (fun _ =>
          logging_exception ("Fail to get " ++ pbucket ++ "/" ++ filename) >>
          __open__ >>
          time_sleep 1 >>
          ret None))
    (ret None).

Definition obj_exist (bucket filename : string) (tenant_id : option string)
  : M (option bool) :=
  let pbucket := _with_prefix bucket in
  try_except
    (let* ex := Minio.bucket_exists pbucket in
     if negb ex then ret (Some false)
     else
       let* st := Minio.stat_object pbucket filename in
       if Minio.truth st then ret (Some true) else ret (Some false))
    (fun e =>
       match e with
       | S3Error code _ =>
           if not_found_code code then ret (Some false) else ret None
       | OtherError _ =>
           logging_exception
             ("obj_exist " ++ pbucket ++ "/" ++ filename ++ " got exception") >>
           ret (Some false)
       end).

Definition bucket_exists (bucket : string) : M (option bool) :=
  let pbucket := _with_prefix bucket in
  try_except
    (let* ex := Minio.bucket_exists pbucket in
     if negb ex then ret (Some false) else ret (Some true))
    (fun e =>
       match e with
       | S3Error code _ =>
           if not_found_code code then ret (Some false) else ret None
       | OtherError _ =>
           logging_exception ("bucket_exist " ++ pbucket ++ " got exception") >>
           ret (Some false)
       end).

Definition get_presigned_url (bucket fnm : string) (expires : nat)
    (tenant_id : option string) : M (option S3.url) :=
  let pbucket := _with_prefix bucket in
  for_range 10
    (try_except
       (let* u := Minio.get_presigned_url (MINIO_host cfg) "GET" pbucket fnm
                                          expires in
        ret (Some (Some u)))
       (fun _ =>
          logging_exception
            ("Fail to get_presigned " ++ pbucket ++ "/" ++ fnm ++ ":") >>
          __open__ >>
          time_sleep 1 >>
          ret None))
    (ret None).

Definition remove_bucket (bucket : string) : M unit :=
  let pbucket := _with_prefix bucket in
  try_except
    (let* ex := Minio.bucket_exists pbucket in
     if ex then
       let* objects_to_delete := Minio.list_objects pbucket true in
       for_each objects_to_delete
         (fun object_name => Minio.remove_object pbucket object_name) >>
       Minio.remove_bucket pbucket
     else ret tt)
    (fun _ => logging_exception ("Fail to remove bucket " ++ pbucket)).

Definition copy (src_bucket src_path dest_bucket dest_path : string)
  : M bool :=
  try_except
    (let psrc_bucket := _with_prefix src_bucket in
     let pdest_bucket := _with_prefix dest_bucket in
     let* ex := Minio.bucket_exists pdest_bucket in
     (if negb ex then Minio.make_bucket pdest_bucket else ret tt) >>
     let* found :=
       try_except
         (Minio.stat_object psrc_bucket src_path >> ret true)
         (fun e =>
            logging_exception
              ("Source object not found: " ++ psrc_bucket ++ "/" ++ src_path
               ++ ", " ++ str e) >>
            ret false) in
     if found then
       Minio.copy_object pdest_bucket dest_path psrc_bucket src_path >>
       ret true
     else ret false)
    (fun _ =>
       logging_exception
         ("Fail to copy " ++ src_bucket ++ "/" ++ src_path ++ " -> "
          ++ dest_bucket ++ "/" ++ dest_path) >>
       ret false).

Definition move (src_bucket src_path dest_bucket dest_path : string)
  : M bool :=
  let psrc_bucket := _with_prefix src_bucket in
  let pdest_bucket := _with_prefix dest_bucket in
  try_except
    (let* copied := copy psrc_bucket src_path pdest_bucket dest_path in
     if copied then
       rm psrc_bucket src_path None >>
       ret true
     else
       logging_error
         ("Copy failed, move aborted: " ++ psrc_bucket ++ "/" ++ src_path) >>
       ret false)
    (fun _ =>
       logging_exception
         ("Fail to move " ++ psrc_bucket ++ "/" ++ src_path ++ " -> "
          ++ pdest_bucket ++ "/" ++ dest_path) >>
       ret false).

End Methods.
End RAGFlowMinio.

(** * Specification vocabulary *)

Import RAGFlowMinio.

(** ** Classes of events *)

Definition is_call (ev : event) : bool :=
  match ev with Call _ _ => true | _ => false end.
Definition is_raised (ev : event) : bool :=
  match ev with Raised _ => true | _ => false end.
Definition is_log (ev : event) : bool :=
  match ev with Log _ _ => true | _ => false end.
(** Events of the reconnect protocol: dropping a handle, building a client. *)
Definition is_reconnect (ev : event) : bool :=
  match ev with Connect _ _ _ _ | Discard _ => true | _ => false end.
Definition no_reconnect (ev : event) : bool := negb (is_reconnect ev).
Definition any_event (ev : event) : bool := true.

(** Every bucket name sent to the service in this event is one of [pbs]. *)
Definition addresses (pbs : list string) (ev : event) : bool :=
  match ev with
  | Call _ rq => forallb (fun b => existsb (String.eqb b) pbs) (buckets_of rq)
  | _ => true
  end.

Definition is_removal (ev : event) : bool :=
  match ev with Call _ (RemoveObject _ _) => true | _ => false end.
Definition is_copy (ev : event) : bool :=
  match ev with Call _ (CopyObject _ _ _ _) => true | _ => false end.

(** The remote calls of a run, in order. *)
Definition calls_of (evs : list event) : list request :=
  omap (fun ev => match ev with Call _ rq => Some rq | _ => None end) evs.

(** ** Relations between the world before and after a run *)

Definition any_world : relation world := fun _ _ => True.

(** The failure oracles are part of the environment: no run changes them. *)
Definition same_oracles (w w' : world) : Prop :=
  fault w' = fault w /\ refuse w' = refuse w.

(** The client state is left alone: same handle, no construction counted. *)
Definition same_client (w w' : world) : Prop :=
  conn w' = conn w /\ opened w' = opened w.

(** ** Properties of computations *)

(** [m] relates every start world to its final world by [I] and emits only
    events of class [E]. *)
Definition keeps {A} (I : relation world) (E : event -> bool) (m : M A) : Prop :=
  forall w, I w (final (m w)) /\ Forall E (emitted (m w)).

(** No exception leaves [m]. *)
Definition total {A} (m : M A) : Prop :=
  forall w, exists a, res (m w) = Ret a.

(** In a list of events, a raised exception is answered by a log record. *)
Definition logged (evs : list event) : Prop :=
  Exists is_raised evs -> Exists is_log evs.

(** When [m] returns normally, whatever was raised on the way was logged. *)
Definition reports {A} (m : M A) : Prop :=
  forall w, match res (m w) with
            | Ret _ => logged (emitted (m w))
            | Raise _ => True
            end.

(** When [m] returns normally it has written a log record. *)
Definition logs {A} (m : M A) : Prop :=
  forall w, match res (m w) with
            | Ret _ => Exists is_log (emitted (m w))
            | Raise _ => True
            end.

(** [m] is a straight sequence of remote calls: it emits calls only, and when
    it raises, the exception is the last event. *)
Definition plain_calls {A} (m : M A) : Prop :=
  forall w, match res (m w) with
            | Ret _ => Forall is_call (emitted (m w))
            | Raise e => exists calls, Forall is_call calls
                                       /\ emitted (m w) = calls ++ [Raised e]
            end.

(** ** Environments *)

(** Nothing fails: no remote call and no client construction. *)
Definition no_failures (w : world) : Prop :=
  (forall n, fault w n = None) /\ (forall n, refuse w n = None).

(** Every remote call fails. *)
Definition persistent_failure (w : world) : Prop :=
  forall n, is_Some (fault w n).

(** The configured bucket prefix is empty ([None] or [""]). *)
Definition unprefixed (cfg : settings) : Prop :=
  or_empty (MINIO_BUCKET_PREFIX cfg) = "".

(** The object stored under [(b, k)], if any. *)
Definition object_at (w : world) (b k : string) : option bytes :=
  objects w !! b ≫= (fun objs => objs !! k).

(** ** Shape of a retry loop's events *)

(** One run of the reconnect protocol: the current handle, if there is one,
    is dropped; a client is built from the static configuration, without
    transport security; a construction that fails is logged. *)
Inductive reconnect_events (cfg : settings) : list event -> Prop :=
| reconnect_events_intro (drop fail : list event) :
    (drop = [] \/ exists h, drop = [Discard h]) ->
    (fail = [] \/ exists e,
        fail = [Raised e;
                Log true ("Fail to connect " ++ MINIO_host cfg ++ " ")]) ->
    reconnect_events cfg
      (drop ++ Connect (MINIO_host cfg) (MINIO_user cfg)
                       (MINIO_password cfg) false :: fail).

(** One failed attempt of a retry loop: some remote calls, the exception,
    the log record [msg], a reconnect, a pause of one second. *)
Inductive failed_attempt (cfg : settings) (msg : string) : list event -> Prop :=
| failed_attempt_intro (calls rc : list event) (e : exn) :
    Forall is_call calls ->
    reconnect_events cfg rc ->
    failed_attempt cfg msg (calls ++ Raised e :: Log true msg :: rc ++ [Sleep 1]).

(** The loop shared by [put], [get] and [get_presigned_url]: up to [n]
    rounds of the attempt, each failure followed by a log record, a
    reconnect and a pause of one second. *)
Definition retry_loop {A} (cfg : settings) (msg : string)
    (attempt : M (option (option A))) (n : nat) : M (option A) :=
  for_range n
    (try_except attempt
       (fun _ =>
          logging_exception msg >> __open__ cfg >> time_sleep 1 >> ret None))
    (ret None).

(** The attempt raises when run in [w]. *)
Definition fails {A} (attempt : M A) (w : world) : bool :=
  match res (attempt w) with
  | Raise _ => true
  | Ret _ => false
  end.

(** The world in which the next round starts after a failed attempt: the
    attempt has run, then the reconnect. *)
Definition next_round {A} (cfg : settings) (attempt : M A) (w : world) : world :=
  final (__open__ cfg (final (attempt w))).

(** Persistent failure: each of the first [n] attempts made from [w] fails. *)
Fixpoint all_fail {A} (cfg : settings) (attempt : M A) (n : nat) (w : world)
  : bool :=
  match n with
  | 0 => true
  | S n' => fails attempt w && all_fail cfg attempt n' (next_round cfg attempt w)
  end.


(** The run [r] of a retry loop consists of at most [n] failed attempts, each
    with its reconnect, and then the calls of the attempt that went through,
    if one did. *)
Definition retries {A} (cfg : settings) (msg : string) (n : nat)
    (r : run (option A)) : Prop :=
  exists atts last,
    emitted r = concat atts ++ last
    /\ Forall (failed_attempt cfg msg) atts
    /\ Forall is_call last
    /\ length atts <= n
    /\ (res r = Ret None -> last = [] /\ length atts = n).

(** The bodies of the three [try] blocks. *)
Definition put_attempt (cfg : settings) (bucket fnm : string) (binary : bytes)
  : M (option (option S3.write_result)) :=
  let pbucket := _with_prefix cfg bucket in
  let* ex := Minio.bucket_exists pbucket in
  (if negb ex then Minio.make_bucket pbucket else ret tt) >>
  let* r := Minio.put_object pbucket fnm binary (length binary) in
  ret (Some (Some r)).

Definition get_attempt (cfg : settings) (bucket filename : string)
  : M (option (option bytes)) :=
  let* data := Minio.get_object_read (_with_prefix cfg bucket) filename in
  ret (Some (Some data)).

Definition presign_attempt (cfg : settings) (bucket fnm : string)
    (expires : nat) : M (option (option S3.url)) :=
  let* u := Minio.get_presigned_url (MINIO_host cfg) "GET"
              (_with_prefix cfg bucket) fnm expires in
  ret (Some (Some u)).

(** The remote calls of a complete [copy]: make sure the destination bucket
    is there ([make]: it has to be created), probe the source, copy. *)
Definition copy_calls (pd dk ps sk : string) (make : bool) : list request :=
  BucketExists pd
  :: (if make then [MakeBucket pd] else [])
  ++ [StatObject ps sk; CopyObject pd dk ps sk].

(** ** Sample settings and worlds *)

Definition plain_cfg : settings :=
  Settings "minio:9000" "rag_flow" "infini_rag_flow" None None.
Definition prefixed_cfg : settings :=
  Settings "minio:9000" "rag_flow" "infini_rag_flow" (Some "rag") (Some "health").

(** A connected client, a service holding [docs/a.txt], nothing failing. *)
Definition calm_world : world :=
  World {[ "docs" := {[ "a.txt" := [x68; x69] ]} ]} (Some 0) 0
        (fun _ => None) 1 (fun _ => None).

(** The same, on a service where every call times out. *)
Definition down_world : world :=
  World {[ "docs" := {[ "a.txt" := [x68; x69] ]} ]} (Some 0) 0
        (fun _ => Some (OtherError "timed out")) 1 (fun _ => None).

(** The same, where only the [n]-th call fails, with [e]. *)
Definition glitch_world (n : nat) (e : exn) : world :=
  World {[ "docs" := {[ "a.txt" := [x68; x69] ]} ]} (Some 0) 0
        (fun i => if Nat.eqb i n then Some e else None) 1 (fun _ => None).

(** ** Relations on the store *)

(** The store is left as it was. *)
Definition same_objects (w w' : world) : Prop :=
  objects w' = objects w.

(** No object other than [(pb, k)] is created, changed or deleted. *)
Definition only_object (pb k : string) (w w' : world) : Prop :=
  forall b' k', (b', k') <> (pb, k) -> object_at w' b' k' = object_at w b' k'.

(** No bucket other than [pb] is created, changed or deleted. *)
Definition only_bucket (pb : string) (w w' : world) : Prop :=
  forall b', b' <> pb -> objects w' !! b' = objects w !! b'.

(** The bucket [pb], if it was there, is still there. *)
Definition bucket_kept (pb : string) (w w' : world) : Prop :=
  is_Some (objects w !! pb) -> is_Some (objects w' !! pb).

(** No remote call fails. *)
Definition reliable (w : world) : Prop :=
  forall n, fault w n = None.

(** The client holds a handle. *)
Definition connected (w : world) : Prop :=
  is_Some (conn w).

(** When [m] raises, the start world and the final world are related by [I]. *)
Definition keeps_on_raise {A} (I : relation world) (m : M A) : Prop :=
  forall w, match res (m w) with
            | Raise _ => I w (final (m w))
            | Ret _ => True
            end.

(** A healthy service, and a client whose construction had failed. *)
Definition unconnected_world : world :=
  World {[ "docs" := {[ "a.txt" := [x68; x69] ]} ]} None 0
        (fun _ => None) 1 (fun _ => None).


(** Names the MinIO client sends.  Before a request goes out the client
    checks the bucket name and the object key and raises [ValueError] on a
    name it refuses.  [accepted_bucket] holds of names of 3 to 63 lower-case
    letters, digits and hyphens that start and end with a letter or a digit,
    other than the name "minio", which the service keeps for itself;
    [accepted_key] of keys of 1 to 255 letters, digits, dots, hyphens and
    underscores that start with a letter or a digit.  The client sends every
    such name (and some others, which these predicates leave out). *)
Definition is_lower (a : Ascii.ascii) : bool :=
  let n := Ascii.nat_of_ascii a in (97 <=? n) && (n <=? 122).
Definition is_upper (a : Ascii.ascii) : bool :=
  let n := Ascii.nat_of_ascii a in (65 <=? n) && (n <=? 90).
Definition is_digit (a : Ascii.ascii) : bool :=
  let n := Ascii.nat_of_ascii a in (48 <=? n) && (n <=? 57).
(** [-] is character 45, [.] is 46 and [_] is 95. *)
Definition is_char (code : nat) (a : Ascii.ascii) : bool :=
  Ascii.nat_of_ascii a =? code.
Definition bucket_char (a : Ascii.ascii) : bool :=
  is_lower a || is_digit a || is_char 45 a.
Definition key_char (a : Ascii.ascii) : bool :=
  is_lower a || is_upper a || is_digit a
  || is_char 46 a || is_char 45 a || is_char 95 a.
Definition head_is (p : Ascii.ascii -> bool) (cs : list Ascii.ascii) : bool :=
  match cs with
  | a :: _ => p a
  | [] => false
  end.
Definition accepted_bucket (b : string) : bool :=
  let cs := String.list_ascii_of_string b in
  (3 <=? length cs) && (length cs <=? 63)
  && forallb bucket_char cs
  && head_is (fun a => is_lower a || is_digit a) cs
  && head_is (fun a => is_lower a || is_digit a) (rev cs)
  && negb (String.eqb b "minio").
Definition accepted_key (k : string) : bool :=
  let cs := String.list_ascii_of_string k in
  (length cs <=? 255)
  && forallb key_char cs
  && head_is (fun a => is_lower a || is_upper a || is_digit a) cs.

(** Every exception raised in a run is followed at once by a log record. *)
Fixpoint raises_logged (evs : list event) : bool :=
  match evs with
  | [] => true
  | Raised _ :: rest =>
      match rest with
      | Log _ _ :: _ => raises_logged rest
      | _ => false
      end
  | _ :: rest => raises_logged rest
  end.

(** [m] accounts for its exceptions: when it returns, every exception raised
    on the way was logged at once; when it raises, that holds of all but the
    exception that leaves, which is the last event. *)
Definition accounts {A} (m : M A) : Prop :=
  forall w,
    match res (m w) with
    | Ret _ => raises_logged (emitted (m w)) = true
    | Raise e =>
        exists evs, emitted (m w) = evs ++ [Raised e]
                    /\ raises_logged evs = true
    end.

(** [m] starts by writing a log record. *)
Definition logs_first {A} (m : M A) : Prop :=
  forall w, exists b msg rest, emitted (m w) = Log b msg :: rest.

(** The keys stored in bucket [pb]. *)
Definition stored_keys (w : world) (pb : string) : list string :=
  match objects w !! pb with
  | Some objs => (map_to_list objs).*1
  | None => []
  end.
Section Keeps.
Context (I : relation world) `{!PreOrder I} (E : event -> bool).

Lemma keeps_ret {A} (a : A) : keeps I E (ret a).
Proof. intros w; split; [reflexivity | constructor]. Qed.

Lemma keeps_emit ev : E ev -> keeps I E (emit ev).
Proof. intros H w; split; [reflexivity | by repeat constructor]. Qed.

Lemma keeps_bind {A B} (m : M A) (k : A -> M B) :
  keeps I E m -> (forall a, keeps I E (k a)) -> keeps I E (bind m k).
Proof.
  intros Hm Hk w. unfold bind. destruct (Hm w) as [Hi He].
  destruct (m w) as [[a|e] w1 evs1]; simpl in *; [|done].
  destruct (Hk a w1) as [Hi' He'].
  destruct (k a w1) as [r w2 evs2]; simpl in *. split.
  - by etrans.
  - by apply Forall_app.
Qed.

Lemma keeps_try_except {A} (body : M A) (handler : exn -> M A) :
  keeps I E body -> (forall e, keeps I E (handler e)) ->
  keeps I E (try_except body handler).
Proof.
  intros Hm Hk w. unfold try_except. destruct (Hm w) as [Hi He].
  destruct (body w) as [[a|e] w1 evs1]; simpl in *; [done|].
  destruct (Hk e w1) as [Hi' He'].
  destruct (handler e w1) as [r w2 evs2]; simpl in *. split.
  - by etrans.
  - by apply Forall_app.
Qed.

Lemma keeps_for_range {A} n (body : M (option A)) (orelse : M A) :
  keeps I E body -> keeps I E orelse -> keeps I E (for_range n body orelse).
Proof.
  intros Hb Ho. induction n as [|n IH]; simpl; [done|].
  apply keeps_bind; [done|]. intros [a|]; [apply keeps_ret | done].
Qed.

Lemma keeps_for_each {A} (xs : list A) (body : A -> M unit) :
  (forall x, keeps I E (body x)) -> keeps I E (for_each xs body).
Proof.
  intros Hb. induction xs as [|x xs IH]; simpl; [apply keeps_ret|].
  apply keeps_bind; [done|]. by intros _.
Qed.

Lemma keeps_call {A} rq (serve : _ -> outcome A * _) :
  (forall w, I w (tick w)) -> (forall s w, I w (set_objects s w)) ->
  (forall h, E (Call h rq)) -> (forall e, E (Raised e)) ->
  keeps I E (Minio.call rq serve).
Proof.
  intros Ht Hs Hc Hr w. unfold Minio.call.
  destruct (conn w) as [h|]; simpl.
  - destruct (fault w (clock w)) as [e|]; simpl.
    + split; [done | repeat constructor; done].
    + destruct (serve (objects w)) as [r s']. simpl. split.
      * etrans; [apply Ht | apply Hs].
      * destruct r; repeat constructor; done.
  - split; [reflexivity | repeat constructor; done].
Qed.

End Keeps.

Section KeepsPrimitives.
Context (I : relation world) `{!PreOrder I} (E : event -> bool).

Lemma keeps_get_conn : keeps I E get_conn.
Proof. intros w; split; [reflexivity | constructor]. Qed.

Lemma keeps_put_conn c :
  (forall w, I w (set_conn c w)) -> keeps I E (put_conn c).
Proof. intros H w; split; [apply H | constructor]. Qed.

Lemma keeps_raise {A} e : (forall e, E (Raised e)) -> keeps I E (raise (A:=A) e).
Proof. intros H w; split; [reflexivity | repeat constructor; apply H]. Qed.

Lemma keeps_new host ak sk secure :
  (forall w, I w (count_open w)) ->
  E (Connect host ak sk secure) -> (forall e, E (Raised e)) ->
  keeps I E (Minio.new host ak sk secure).
Proof.
  intros Hi Hc Hr w. unfold Minio.new.
  destruct (refuse w (opened w)); simpl; (split; [apply Hi | repeat constructor; done]).
Qed.

End KeepsPrimitives.

#[global] Instance same_oracles_preorder : PreOrder same_oracles.
Proof.
  split.
  - by intros w.
  - intros w1 w2 w3 [H1 H2] [H3 H4]. split; congruence.
Qed.

#[global] Instance same_client_preorder : PreOrder same_client.
Proof.
  split.
  - by intros w.
  - intros w1 w2 w3 [H1 H2] [H3 H4]. split; congruence.
Qed.

#[global] Instance any_world_preorder : PreOrder any_world.
Proof. by split. Qed.

Ltac unfold_prims :=
  unfold Minio.bucket_exists, Minio.make_bucket, Minio.put_object,
    Minio.remove_object, Minio.get_object_read, Minio.stat_object,
    Minio.get_presigned_url, Minio.list_objects, Minio.remove_bucket,
    Minio.copy_object, logging_exception, logging_error, time_sleep.

Ltac keeps_side :=
  intros;
  solve [ apply _
        | done
        | split; done
        | exact I
        | cbn; rewrite ?String.eqb_refl, ?orb_true_r; exact I ].

Ltac keeps_auto :=
  unfold_prims;
  repeat (intros; first
    [ match goal with |- PreOrder _ => apply _ end
    | apply keeps_ret
    | apply keeps_emit; keeps_side
    | apply keeps_get_conn
    | apply keeps_put_conn; keeps_side
    | apply keeps_new; keeps_side
    | apply keeps_raise; keeps_side
    | apply keeps_call; keeps_side
    | apply keeps_bind
    | apply keeps_try_except
    | apply keeps_for_range
    | apply keeps_for_each
    | match goal with
      | |- keeps _ _ (match ?x with _ => _ end) => destruct x
      end ]).

(** ** Exceptions never leave *)

Lemma total_ret {A} (a : A) : total (ret a).
Proof. intros w. by exists a. Qed.

Lemma total_emit ev : total (emit ev).
Proof. intros w. by exists tt. Qed.

Lemma total_get_conn : total get_conn.
Proof. intros w. by eexists. Qed.

Lemma total_put_conn c : total (put_conn c).
Proof. intros w. by exists tt. Qed.

Lemma total_bind {A B} (m : M A) (k : A -> M B) :
  total m -> (forall a, total (k a)) -> total (bind m k).
Proof.
  intros Hm Hk w. unfold bind. destruct (Hm w) as [a Ha].
  destruct (m w) as [r w1 evs1]; simpl in *; subst r.
  destruct (Hk a w1) as [b Hb].
  destruct (k a w1) as [r w2 evs2]; simpl in *. by exists b.
Qed.

Lemma total_try_except {A} (body : M A) (handler : exn -> M A) :
  (forall e, total (handler e)) -> total (try_except body handler).
Proof.
  intros Hh w. unfold try_except.
  destruct (body w) as [[a|e] w1 evs1]; simpl; [by exists a|].
  destruct (Hh e w1) as [b Hb].
  destruct (handler e w1) as [r w2 evs2]; simpl in *. by exists b.
Qed.

Lemma total_for_range {A} n (body : M (option A)) (orelse : M A) :
  total body -> total orelse -> total (for_range n body orelse).
Proof.
  intros Hb Ho. induction n as [|n IH]; simpl; [done|].
  apply total_bind; [done|]. intros [a|]; [apply total_ret | done].
Qed.

Ltac total_auto :=
  unfold logging_exception, logging_error, time_sleep;
  repeat (intros; first
    [ apply total_ret
    | apply total_emit
    | apply total_get_conn
    | apply total_put_conn
    | apply total_try_except
    | apply total_for_range
    | apply total_bind
    | match goal with
      | |- total (match ?x with _ => _ end) => destruct x
      end ]).

(** ** Raised exceptions are logged *)

Lemma logged_nil : logged [].
Proof. intros H. by apply Exists_nil in H. Qed.

Lemma logged_app evs1 evs2 : logged evs1 -> logged evs2 -> logged (evs1 ++ evs2).
Proof.
  unfold logged. rewrite !Exists_app. intros H1 H2 [H|H]; [left|right]; auto.
Qed.

Lemma logged_log_r evs1 evs2 : Exists is_log evs2 -> logged (evs1 ++ evs2).
Proof. intros H _. apply Exists_app. by right. Qed.

Lemma logged_calls evs : Forall is_call evs -> logged evs.
Proof.
  intros Hc Hr. exfalso. apply Exists_exists in Hr as (ev & Hin & Hr).
  rewrite Forall_forall in Hc. specialize (Hc ev Hin). by destruct ev.
Qed.

Lemma reports_ret {A} (a : A) : reports (ret a).
Proof. intros w. apply logged_nil. Qed.

Lemma reports_emit ev : is_raised ev = false -> reports (emit ev).
Proof.
  intros H w. simpl. intros Hr. apply Exists_cons in Hr as [Hr|Hr].
  - by rewrite H in Hr.
  - by apply Exists_nil in Hr.
Qed.

Lemma reports_get_conn : reports get_conn.
Proof. intros w. apply logged_nil. Qed.

Lemma reports_put_conn c : reports (put_conn c).
Proof. intros w. apply logged_nil. Qed.

Lemma reports_raise {A} e : reports (raise (A:=A) e).
Proof. by intros w. Qed.

Lemma reports_call {A} rq (serve : _ -> outcome A * _) :
  reports (Minio.call rq serve).
Proof.
  intros w. unfold Minio.call.
  destruct (conn w) as [h|]; simpl; [|done].
  destruct (fault w (clock w)) as [e|]; simpl; [done|].
  destruct (serve (objects w)) as [[a|e] s']; simpl; [|done].
  apply logged_calls. by repeat constructor.
Qed.

Lemma reports_new host ak sk secure : reports (Minio.new host ak sk secure).
Proof.
  intros w. unfold Minio.new. destruct (refuse w (opened w)); simpl; [done|].
  intros Hr. apply Exists_cons in Hr as [Hr|Hr]; [done|].
  by apply Exists_nil in Hr.
Qed.

Lemma reports_bind {A B} (m : M A) (k : A -> M B) :
  reports m -> (forall a, reports (k a)) -> reports (bind m k).
Proof.
  intros Hm Hk w. unfold bind. specialize (Hm w).
  destruct (m w) as [[a|e] w1 evs1]; simpl in *; [|done].
  specialize (Hk a w1).
  destruct (k a w1) as [[b|e] w2 evs2]; simpl in *; [|done].
  by apply logged_app.
Qed.

(** A handler that logs makes up for whatever the body raised. *)
Lemma reports_try_except {A} (body : M A) (handler : exn -> M A) :
  reports body -> (forall e, logs (handler e)) ->
  reports (try_except body handler).
Proof.
  intros Hb Hh w. unfold try_except. specialize (Hb w).
  destruct (body w) as [[a|e] w1 evs1]; simpl in *; [done|].
  specialize (Hh e w1).
  destruct (handler e w1) as [[b|e'] w2 evs2]; simpl in *; [|done].
  by apply logged_log_r.
Qed.

(** A silent handler is harmless around a body that cannot raise. *)
Lemma reports_try_total {A} (body : M A) (handler : exn -> M A) :
  total body -> reports body -> reports (try_except body handler).
Proof.
  intros Ht Hb w. unfold try_except. specialize (Hb w).
  destruct (Ht w) as [a Ha].
  destruct (body w) as [r w1 evs1]; simpl in *. by subst r.
Qed.

Lemma reports_for_range {A} n (body : M (option A)) (orelse : M A) :
  reports body -> reports orelse -> reports (for_range n body orelse).
Proof.
  intros Hb Ho. induction n as [|n IH]; simpl; [done|].
  apply reports_bind; [done|]. intros [a|]; [apply reports_ret | done].
Qed.

Lemma reports_for_each {A} (xs : list A) (body : A -> M unit) :
  (forall x, reports (body x)) -> reports (for_each xs body).
Proof.
  intros Hb. induction xs as [|x xs IH]; simpl; [apply reports_ret|].
  apply reports_bind; [done|]. by intros _.
Qed.

Lemma logs_log_bind {A} b msg (k : M A) : logs (emit (Log b msg) >> k).
Proof.
  intros w. unfold bind, emit.
  destruct (k w) as [[a|e] w1 evs1]; simpl; [|done]. by apply Exists_cons_hd.
Qed.

Lemma logs_log b msg : logs (emit (Log b msg)).
Proof. intros w. simpl. by apply Exists_cons_hd. Qed.

Ltac reports_auto :=
  unfold_prims;
  repeat (intros; first
    [ apply reports_ret
    | apply reports_emit; reflexivity
    | apply reports_get_conn
    | apply reports_put_conn
    | apply reports_raise
    | apply reports_call
    | apply reports_new
    | apply logs_log_bind
    | apply logs_log
    | apply reports_try_except
    | apply reports_for_range
    | apply reports_for_each
    | apply reports_bind
    | match goal with
      | |- reports (match ?x with _ => _ end) => destruct x
      end ]).

(** ** Straight sequences of remote calls *)

Lemma plain_calls_ret {A} (a : A) : plain_calls (ret a).
Proof. intros w. constructor. Qed.

Lemma plain_calls_call {A} rq (serve : _ -> outcome A * _) :
  plain_calls (Minio.call rq serve).
Proof.
  intros w. unfold Minio.call.
  destruct (conn w) as [h|]; simpl.
  - destruct (fault w (clock w)) as [e|]; simpl.
    + exists [Call h rq]. by repeat constructor.
    + destruct (serve (objects w)) as [[a|e] s']; simpl.
      * by repeat constructor.
      * exists [Call h rq]. by repeat constructor.
  - by exists [].
Qed.

Lemma plain_calls_raise {A} e : plain_calls (raise (A:=A) e).
Proof. intros w. by exists []. Qed.

Lemma plain_calls_get_conn : plain_calls get_conn.
Proof. intros w. constructor. Qed.

Lemma plain_calls_bind {A B} (m : M A) (k : A -> M B) :
  plain_calls m -> (forall a, plain_calls (k a)) -> plain_calls (bind m k).
Proof.
  intros Hm Hk w. unfold bind. specialize (Hm w).
  destruct (m w) as [[a|e] w1 evs1]; simpl in *; [|done].
  specialize (Hk a w1).
  destruct (k a w1) as [[b|e] w2 evs2]; simpl in *.
  - by apply Forall_app.
  - destruct Hk as (calls & Hc & ->).
    exists (evs1 ++ calls). split; [by apply Forall_app|].
    by rewrite app_assoc.
Qed.

Ltac plain_auto :=
  unfold_prims;
  repeat (intros; first
    [ apply plain_calls_ret
    | apply plain_calls_call
    | apply plain_calls_raise
    | apply plain_calls_get_conn
    | apply plain_calls_bind
    | match goal with
      | |- plain_calls (match ?x with _ => _ end) => destruct x
      end ]).

(** ** The reconnect protocol *)

Lemma open_run cfg w :
  let r := __open__ cfg w in
  res r = Ret tt
  /\ emitted r =
       match conn w with Some h => [Discard h] | None => [] end
       ++ Connect (MINIO_host cfg) (MINIO_user cfg) (MINIO_password cfg) false
       :: match refuse w (opened w) with
          | Some e => [Raised e;
                       Log true ("Fail to connect " ++ MINIO_host cfg ++ " ")]
          | None => []
          end
  /\ conn (final r) =
       match refuse w (opened w) with
       | Some _ => None
       | None => Some (opened w)
       end
  /\ opened (final r) = S (opened w)
  /\ objects (final r) = objects w
  /\ clock (final r) = clock w.
Proof.
  unfold __open__, __close__, try_except, bind, get_conn, put_conn, emit,
    Minio.new, logging_exception, ret.
  destruct w as [s [h|] c f o rf]; simpl; destruct (rf o); simpl; done.
Qed.

Lemma open_reconnect_events cfg w :
  reconnect_events cfg (emitted (__open__ cfg w)).
Proof.
  destruct (open_run cfg w) as (_ & -> & _).
  constructor.
  - destruct (conn w); eauto.
  - destruct (refuse w (opened w)); eauto.
Qed.

Lemma open_total cfg : total (__open__ cfg).
Proof. intros w. exists tt. apply open_run. Qed.

Lemma open_reports cfg : reports (__open__ cfg).
Proof.
  intros w. destruct (open_run cfg w) as (-> & -> & _).
  destruct (refuse w (opened w)).
  - apply logged_log_r. do 2 apply Exists_cons_tl. by apply Exists_cons_hd.
  - apply logged_app; intros H.
    + destruct (conn w); [apply Exists_cons in H as [H|H]; [done|]|];
        by apply Exists_nil in H.
    + apply Exists_cons in H as [H|H]; [done|]. by apply Exists_nil in H.
Qed.

(** ** The methods, one by one *)

Section MethodFacts.
Variable cfg : settings.

Lemma put_total b k d t : total (put cfg b k d t).
Proof. unfold put. total_auto; apply open_total. Qed.

Lemma rm_total b k t : total (rm cfg b k t).
Proof. unfold rm. total_auto. Qed.

Lemma get_total b k t : total (get cfg b k t).
Proof. unfold get. total_auto; apply open_total. Qed.

Lemma obj_exist_total b k t : total (obj_exist cfg b k t).
Proof. unfold obj_exist. total_auto. Qed.

Lemma bucket_exists_total b : total (bucket_exists cfg b).
Proof. unfold bucket_exists. total_auto. Qed.

Lemma get_presigned_url_total b k x t : total (get_presigned_url cfg b k x t).
Proof. unfold get_presigned_url. total_auto; apply open_total. Qed.

Lemma remove_bucket_total b : total (remove_bucket cfg b).
Proof. unfold remove_bucket. total_auto. Qed.

Lemma copy_total sb sk db dk : total (copy cfg sb sk db dk).
Proof. unfold copy. total_auto. Qed.

Lemma move_total sb sk db dk : total (move cfg sb sk db dk).
Proof. unfold move. total_auto. Qed.

Lemma put_reports b k d t : reports (put cfg b k d t).
Proof. unfold put. reports_auto. Qed.

Lemma rm_reports b k t : reports (rm cfg b k t).
Proof. unfold rm. reports_auto. Qed.

Lemma get_reports b k t : reports (get cfg b k t).
Proof. unfold get. reports_auto. Qed.

Lemma get_presigned_url_reports b k x t :
  reports (get_presigned_url cfg b k x t).
Proof. unfold get_presigned_url. reports_auto. Qed.

Lemma remove_bucket_reports b : reports (remove_bucket cfg b).
Proof. unfold remove_bucket. reports_auto. Qed.

Lemma copy_reports sb sk db dk : reports (copy cfg sb sk db dk).
Proof. unfold copy. reports_auto. Qed.

Lemma move_reports sb sk db dk : reports (move cfg sb sk db dk).
Proof. unfold move. reports_auto. Qed.

(** Only [put], [get] and [get_presigned_url] touch the client state. *)

Lemma health_quiet : keeps same_client no_reconnect (health cfg).
Proof. unfold health. keeps_auto. Qed.

Lemma rm_quiet b k t : keeps same_client no_reconnect (rm cfg b k t).
Proof. unfold rm. keeps_auto. Qed.

Lemma obj_exist_quiet b k t : keeps same_client no_reconnect (obj_exist cfg b k t).
Proof. unfold obj_exist. keeps_auto. Qed.

Lemma bucket_exists_quiet b : keeps same_client no_reconnect (bucket_exists cfg b).
Proof. unfold bucket_exists. keeps_auto. Qed.

Lemma remove_bucket_quiet b : keeps same_client no_reconnect (remove_bucket cfg b).
Proof. unfold remove_bucket. keeps_auto. Qed.

Lemma copy_quiet sb sk db dk : keeps same_client no_reconnect (copy cfg sb sk db dk).
Proof. unfold copy. keeps_auto. Qed.

Lemma move_quiet sb sk db dk : keeps same_client no_reconnect (move cfg sb sk db dk).
Proof. unfold move, copy, rm. keeps_auto. Qed.

(** No method changes the failure oracles. *)

Lemma open_oracles : keeps same_oracles any_event (__open__ cfg).
Proof. unfold __open__, __close__. keeps_auto. Qed.

Lemma put_oracles b k d t : keeps same_oracles any_event (put cfg b k d t).
Proof. unfold put, __open__, __close__. keeps_auto. Qed.

Lemma rm_oracles b k t : keeps same_oracles any_event (rm cfg b k t).
Proof. unfold rm. keeps_auto. Qed.

Lemma copy_oracles sb sk db dk : keeps same_oracles any_event (copy cfg sb sk db dk).
Proof. unfold copy. keeps_auto. Qed.

Lemma move_oracles sb sk db dk : keeps same_oracles any_event (move cfg sb sk db dk).
Proof. unfold move, copy, rm. keeps_auto. Qed.

(** Bucket names on the wire. *)

Lemma health_addresses :
  keeps any_world
    (addresses [_with_prefix cfg (or_empty (MINIO_HEALTH_BUCKET cfg))])
    (health cfg).
Proof. unfold health. keeps_auto. Qed.

Lemma put_addresses b k d t :
  keeps any_world (addresses [_with_prefix cfg b]) (put cfg b k d t).
Proof. unfold put, __open__, __close__. keeps_auto. Qed.

Lemma rm_addresses b k t :
  keeps any_world (addresses [_with_prefix cfg b]) (rm cfg b k t).
Proof. unfold rm. keeps_auto. Qed.

Lemma get_addresses b k t :
  keeps any_world (addresses [_with_prefix cfg b]) (get cfg b k t).
Proof. unfold get, __open__, __close__. keeps_auto. Qed.

Lemma obj_exist_addresses b k t :
  keeps any_world (addresses [_with_prefix cfg b]) (obj_exist cfg b k t).
Proof. unfold obj_exist. keeps_auto. Qed.

Lemma bucket_exists_addresses b :
  keeps any_world (addresses [_with_prefix cfg b]) (bucket_exists cfg b).
Proof. unfold bucket_exists. keeps_auto. Qed.

Lemma get_presigned_url_addresses b k x t :
  keeps any_world (addresses [_with_prefix cfg b]) (get_presigned_url cfg b k x t).
Proof. unfold get_presigned_url, __open__, __close__. keeps_auto. Qed.

Lemma remove_bucket_addresses b :
  keeps any_world (addresses [_with_prefix cfg b]) (remove_bucket cfg b).
Proof. unfold remove_bucket. keeps_auto. Qed.

Lemma copy_addresses sb sk db dk :
  keeps any_world (addresses [_with_prefix cfg sb; _with_prefix cfg db])
    (copy cfg sb sk db dk).
Proof. unfold copy. keeps_auto. Qed.

Lemma move_addresses sb sk db dk :
  keeps any_world
    (addresses [_with_prefix cfg (_with_prefix cfg sb);
                _with_prefix cfg (_with_prefix cfg db)])
    (move cfg sb sk db dk).
Proof. unfold move, copy, rm. keeps_auto. Qed.

End MethodFacts.

(** ** Retry loops

    [put], [get] and [get_presigned_url] share one loop: try the attempt;
    when it raises, log, reconnect, sleep one second and go round again. *)

Section Retry.
Context {A : Type} (cfg : settings) (msg : string).
Variable attempt : M (option (option A)).

Local Abbreviation loop := (retry_loop cfg msg attempt).

Lemma loop_step_ok n w v :
  res (attempt w) = Ret (Some v) ->
  res (loop (S n) w) = Ret v
  /\ final (loop (S n) w) = final (attempt w)
  /\ emitted (loop (S n) w) = emitted (attempt w).
Proof.
  intros H. unfold retry_loop. simpl. unfold bind, try_except.
  destruct (attempt w) as [r w1 evs1]; simpl in *; subst r. simpl.
  by rewrite app_nil_r.
Qed.

Lemma loop_step_fail n w e :
  res (attempt w) = Raise e ->
  let w' := final (__open__ cfg (final (attempt w))) in
  res (loop (S n) w) = res (loop n w')
  /\ final (loop (S n) w) = final (loop n w')
  /\ emitted (loop (S n) w) =
       (emitted (attempt w)
        ++ Log true msg :: emitted (__open__ cfg (final (attempt w)))
        ++ [Sleep 1])
       ++ emitted (loop n w').
Proof.
  intros H. unfold retry_loop. simpl.
  destruct (open_run cfg (final (attempt w))) as (Hr & _).
  unfold bind, try_except, logging_exception, time_sleep, emit, ret.
  destruct (attempt w) as [r w1 evs1]; simpl in *; subst r.
  destruct (__open__ cfg w1) as [r2 w2 evs2]; simpl in *; subst r2.
  match goal with |- context [for_range n ?b ?o w2] =>
    destruct (for_range n b o w2) as [r3 w3 evs3] end.
  done.
Qed.

Hypothesis attempt_plain : plain_calls attempt.
Hypothesis attempt_returns :
  forall w x, res (attempt w) = Ret x -> exists a, x = Some (Some a).

(** The events of the loop are a sequence of failed attempts, followed by
    the calls of the attempt that succeeded, if one did. *)
Lemma retry_shape n w :
  exists atts last,
    emitted (loop n w) = concat atts ++ last
    /\ Forall (failed_attempt cfg msg) atts
    /\ Forall is_call last
    /\ length atts <= n
    /\ (res (loop n w) = Ret None -> last = [] /\ length atts = n)
    /\ exists v, res (loop n w) = Ret v.
Proof.
  revert w. induction n as [|n IH]; intros w.
  - exists [], []. simpl. repeat split; eauto.
  - pose proof (attempt_plain w) as Hp.
    destruct (res (attempt w)) as [x|e] eqn:Ha.
    + destruct (attempt_returns w x Ha) as [a ->].
      destruct (loop_step_ok n w (Some a) Ha) as (Hr & _ & He).
      exists [], (emitted (attempt w)). rewrite Hr, He. simpl.
      repeat split; eauto with lia; done.
    + destruct Hp as (calls & Hc & Hev).
      destruct (loop_step_fail n w e Ha) as (Hr & _ & He).
      destruct (IH (final (__open__ cfg (final (attempt w)))))
        as (atts & last & He' & Hatts & Hlast & Hlen & Hnone & Hres).
      exists ((calls ++ Raised e :: Log true msg
                 :: emitted (__open__ cfg (final (attempt w))) ++ [Sleep 1])
              :: atts), last.
      rewrite Hr, He, He', Hev. simpl.
      split; [by rewrite <- !app_assoc|].
      split.
      { constructor; [|done]. constructor; [done|].
        apply open_reconnect_events. }
      split; [done|]. split; [lia|]. split; [|done].
      intros Hn. destruct (Hnone Hn) as [-> <-]. done.
Qed.


(** An attempt that cannot succeed while every remote call fails keeps
    failing round after round: the oracles never change. *)
Lemma persistent_all_fail n w :
  (forall w, persistent_failure w -> fails attempt w = true) ->
  keeps same_oracles any_event attempt ->
  persistent_failure w ->
  all_fail cfg attempt n w = true.
Proof.
  intros Hfail Hor. revert w. induction n as [|n IH]; intros w Hw; [done|].
  simpl. rewrite (Hfail w Hw). simpl. apply IH.
  unfold next_round.
  destruct (Hor w) as [[Hf _] _].
  destruct (open_oracles cfg (final (attempt w))) as [[Hf' _] _].
  intros i. rewrite Hf', Hf. apply Hw.
Qed.

End Retry.

Lemma call_fails {A B} rq (serve : _ -> outcome A * _) (k : A -> M B) w :
  persistent_failure w -> fails (bind (Minio.call rq serve) k) w = true.
Proof.
  intros Hw. unfold fails, bind, Minio.call. destruct (conn w); [|done].
  by destruct (Hw (clock w)) as [e ->].
Qed.

(** The three retrying methods are instances of the loop. *)

Lemma put_unfold cfg b k d t :
  put cfg b k d t
  = retry_loop cfg ("Fail to put " ++ b ++ "/" ++ k ++ ":")
      (put_attempt cfg b k d) 3.
Proof. reflexivity. Qed.

Lemma get_unfold cfg b k t :
  get cfg b k t
  = retry_loop cfg ("Fail to get " ++ _with_prefix cfg b ++ "/" ++ k)
      (get_attempt cfg b k) 1.
Proof. reflexivity. Qed.

Lemma get_presigned_url_unfold cfg b k x t :
  get_presigned_url cfg b k x t
  = retry_loop cfg
      ("Fail to get_presigned " ++ _with_prefix cfg b ++ "/" ++ k ++ ":")
      (presign_attempt cfg b k x) 10.
Proof. reflexivity. Qed.

(** ** Symbolic execution of single methods *)

Ltac unfold_run :=
  unfold __open__, __close__;
  unfold for_range, Minio.bucket_exists, Minio.make_bucket,
    Minio.put_object, Minio.remove_object, Minio.get_object_read,
    Minio.stat_object, Minio.get_presigned_url, Minio.list_objects,
    Minio.remove_bucket, Minio.copy_object, Minio.call, Minio.new,
    get_conn, put_conn, raise, logging_exception, logging_error, time_sleep;
  unfold try_except, bind, emit, ret.

Ltac run_cases :=
  repeat (progress (simpl in *; simplify_eq; try done; try case_match)).

Lemma string_length_app (s t : string) :
  String.length (s ++ t) = String.length s + String.length t.
Proof. induction s as [|a s IH]; simpl; [done | by rewrite IH]. Qed.

(** With a non-empty prefix, prefixing twice is not prefixing once. *)
Lemma with_prefix_twice_differs cfg b :
  nonempty (or_empty (MINIO_BUCKET_PREFIX cfg)) = true ->
  _with_prefix cfg (_with_prefix cfg b) <> _with_prefix cfg b.
Proof.
  unfold _with_prefix. intros Hp. rewrite Hp.
  destruct (or_empty (MINIO_BUCKET_PREFIX cfg)) as [|a p]; [done|].
  intros H. apply (f_equal String.length) in H.
  rewrite !string_length_app in H. simpl in H. lia.
Qed.

Lemma with_prefix_unprefixed cfg b : unprefixed cfg -> _with_prefix cfg b = b.
Proof. unfold unprefixed, _with_prefix. by intros ->. Qed.

Lemma get_absent cfg b k t w :
  object_at w (_with_prefix cfg b) k = None ->
  res (get cfg b k t w) = Ret None.
Proof.
  unfold get, object_at. generalize (_with_prefix cfg b) as pb. intros pb.
  destruct w as [s c n f o rf]. unfold_run. unfold S3.get_object.
  intros H. run_cases.
Qed.

Lemma obj_exist_absent cfg b k t w :
  object_at w (_with_prefix cfg b) k = None ->
  res (obj_exist cfg b k t w) = Ret (Some false)
  \/ res (obj_exist cfg b k t w) = Ret None.
Proof.
  unfold obj_exist, object_at. generalize (_with_prefix cfg b) as pb. intros pb.
  destruct w as [s c n f o rf]. unfold_run.
  unfold S3.bucket_exists, S3.stat_object.
  intros H. run_cases; auto.
Qed.

Lemma rm_clean_deletes cfg b k t w :
  ~ Exists is_raised (emitted (rm cfg b k t w)) ->
  object_at (final (rm cfg b k t w)) (_with_prefix cfg b) k = None.
Proof.
  unfold rm, object_at. generalize (_with_prefix cfg b) as pb. intros pb.
  destruct w as [s c n f o rf]. unfold_run. unfold S3.remove_object.
  intros H. run_cases.
  all: try (exfalso; apply H; rewrite ?Exists_cons; simpl; tauto).
  rewrite lookup_insert_eq. simpl. apply lookup_delete_eq.
Qed.

Lemma move_run cfg sb sk db dk w :
  let ps := _with_prefix cfg sb in
  let pd := _with_prefix cfg db in
  let c := copy cfg ps sk pd dk w in
  let d := rm cfg ps sk None (final c) in
  let r := move cfg sb sk db dk w in
  (res c = Ret true /\ res r = Ret true /\ final r = final d
   /\ emitted r = emitted c ++ emitted d)
  \/ (res c = Ret false /\ res r = Ret false /\ final r = final c
      /\ emitted r =
           emitted c
           ++ [Log false ("Copy failed, move aborted: " ++ ps ++ "/" ++ sk)]).
Proof.
  intros ps pd c d r. subst r c d. unfold move. fold ps pd.
  destruct (copy_total cfg ps sk pd dk w) as [b Hb].
  unfold try_except, bind, logging_error, emit, ret.
  destruct (copy cfg ps sk pd dk w) as [rc w1 evs1]; simpl in *; subst rc.
  destruct b; simpl.
  - left. destruct (rm_total cfg ps sk None w1) as [[] Hd].
    destruct (rm cfg ps sk None w1) as [rd w2 evs2]; simpl in *; subst rd.
    simpl. by rewrite app_nil_r.
  - right. done.
Qed.


Lemma put_attempt_stores cfg b k data w :
  no_failures w -> is_Some (conn w) ->
  let r := put_attempt cfg b k data w in
  res r = Ret (Some (Some (S3.WriteResult (_with_prefix cfg b) k)))
  /\ object_at (final r) (_with_prefix cfg b) k = Some data
  /\ is_Some (conn (final r))
  /\ no_failures (final r).
Proof.
  unfold put_attempt, object_at, no_failures.
  generalize (_with_prefix cfg b) as pb. intros pb.
  destruct w as [s c n f o rf]. simpl. intros [Hf Hr] [h ->].
  unfold_run. unfold S3.bucket_exists, S3.make_bucket, S3.put_object.
  repeat (progress (simpl in *; rewrite ?Hf, ?Hr, ?lookup_insert_eq in *;
                    simplify_eq; try case_match)).
  all: try match goal with H : _ = Some _ |- _ => by rewrite Hf in H end.
  all: rewrite ?firstn_all; eauto.
Qed.

Lemma put_attempt_unconnected cfg b k data w :
  conn w = None ->
  exists e, put_attempt cfg b k data w = Run (Raise e) w [Raised e].
Proof.
  intros Hc. unfold put_attempt. unfold_run. rewrite Hc. by eexists.
Qed.

Lemma put_stores cfg b k data t w :
  no_failures w ->
  let r := put cfg b k data t w in
  res r = Ret (Some (S3.WriteResult (_with_prefix cfg b) k))
  /\ object_at (final r) (_with_prefix cfg b) k = Some data
  /\ is_Some (conn (final r))
  /\ no_failures (final r).
Proof.
  intros Hw. rewrite put_unfold. cbv zeta.
  set (msg := ("Fail to put " ++ b ++ "/" ++ k ++ ":")%string).
  destruct (conn w) as [h|] eqn:Hc.
  - destruct (put_attempt_stores cfg b k data w Hw) as (Ha & Hobj & Hconn & Hnf);
      [by rewrite Hc|].
    destruct (loop_step_ok cfg msg _ 2 w _ Ha) as (-> & -> & _). done.
  - destruct (put_attempt_unconnected cfg b k data w Hc) as [e Ha].
    destruct (loop_step_fail cfg msg (put_attempt cfg b k data) 2 w e)
      as (-> & -> & _); [by rewrite Ha|].
    rewrite Ha. simpl.
    destruct (open_run cfg w) as (_ & _ & Hc' & _).
    destruct (open_oracles cfg w) as [[Hf' Hr'] _].
    destruct Hw as [Hf Hr]. rewrite Hr in Hc'.
    set (w' := final (__open__ cfg w)) in *.
    assert (Hw' : no_failures w').
    { split; intros n; [rewrite Hf'|rewrite Hr']; done. }
    destruct (put_attempt_stores cfg b k data w' Hw') as (Ha' & Hobj & Hconn & Hnf);
      [by rewrite Hc'|].
    destruct (loop_step_ok cfg msg _ 1 w' _ Ha') as (-> & -> & _). done.
Qed.

Lemma get_present cfg b k t w data :
  fault w (clock w) = None ->
  is_Some (conn w) ->
  object_at w (_with_prefix cfg b) k = Some data ->
  res (get cfg b k t w) = Ret (Some data).
Proof.
  intros Hf Hc H. rewrite get_unfold.
  apply (loop_step_ok cfg _ (get_attempt cfg b k) 0 w (Some data)).
  revert Hf Hc H. unfold get_attempt, object_at.
  generalize (_with_prefix cfg b) as pb. intros pb.
  destruct w as [s c n f o rf]. simpl. intros Hf [h ->] H.
  unfold_run. unfold S3.get_object. simpl.
  rewrite Hf. run_cases.
Qed.

Ltac event_facts :=
  rewrite ?Exists_app, ?Exists_cons, ?Exists_nil, ?Forall_cons, ?Forall_nil;
  simpl; try tauto.

Ltac store_facts :=
  repeat match goal with
  | H : context [<[_:=_]> _ !! _] |- _ =>
      rewrite lookup_insert in H; case_decide; simplify_eq
  | |- context [<[_:=_]> _ !! _] =>
      rewrite lookup_insert; case_decide; simplify_eq
  | H : ∅ !! _ = Some _ |- _ => by rewrite lookup_empty in H
  | H : ?m !! ?k = _ |- context [?m !! ?k] => rewrite H
  | H : ?m !! ?k = _, H' : context [?m !! ?k] |- _ => rewrite H in H'
  end; simpl in *.


(** ** The three attempts *)

Section Attempts.
Variable cfg : settings.

Lemma put_attempt_plain b k d : plain_calls (put_attempt cfg b k d).
Proof. unfold put_attempt. plain_auto. Qed.

Lemma get_attempt_plain b k : plain_calls (get_attempt cfg b k).
Proof. unfold get_attempt. plain_auto. Qed.

Lemma presign_attempt_plain b k x : plain_calls (presign_attempt cfg b k x).
Proof. unfold presign_attempt. plain_auto. Qed.

Lemma put_attempt_returns b k d w x :
  res (put_attempt cfg b k d w) = Ret x -> exists a, x = Some (Some a).
Proof.
  unfold put_attempt. unfold_prims. unfold bind, ret.
  repeat (case_match; simpl in *; simplify_eq); intros; simplify_eq; eauto.
Qed.

Lemma get_attempt_returns b k w x :
  res (get_attempt cfg b k w) = Ret x -> exists a, x = Some (Some a).
Proof.
  unfold get_attempt. unfold_prims. unfold bind, ret.
  repeat (case_match; simpl in *; simplify_eq); intros; simplify_eq; eauto.
Qed.

Lemma presign_attempt_returns b k e w x :
  res (presign_attempt cfg b k e w) = Ret x -> exists a, x = Some (Some a).
Proof.
  unfold presign_attempt. unfold_prims.
  unfold Minio.call, get_conn, raise, bind, ret.
  repeat (case_match; simpl in *; simplify_eq); intros; simplify_eq; eauto.
Qed.

Lemma put_attempt_fails b k d w :
  persistent_failure w -> fails (put_attempt cfg b k d) w = true.
Proof. apply call_fails. Qed.

Lemma get_attempt_fails b k w :
  persistent_failure w -> fails (get_attempt cfg b k) w = true.
Proof. apply call_fails. Qed.

Lemma presign_attempt_fails b k x w :
  persistent_failure w -> fails (presign_attempt cfg b k x) w = true.
Proof.
  intros Hw. unfold fails, presign_attempt. unfold_prims.
  unfold Minio.call, get_conn, raise, bind, ret.
  destruct w as [s [h|] c f o rf]; simpl; [|done].
  destruct (Minio.expiry_ok x); simpl; [|done].
  destruct (Hw c) as [e He]. simpl in He. by rewrite He.
Qed.

Lemma put_attempt_oracles b k d :
  keeps same_oracles any_event (put_attempt cfg b k d).
Proof. unfold put_attempt. keeps_auto. Qed.

Lemma get_attempt_oracles b k :
  keeps same_oracles any_event (get_attempt cfg b k).
Proof. unfold get_attempt. keeps_auto. Qed.

Lemma presign_attempt_oracles b k x :
  keeps same_oracles any_event (presign_attempt cfg b k x).
Proof. unfold presign_attempt. keeps_auto. Qed.

(** While every remote call fails, every attempt of the three loops does. *)

Lemma put_all_fail b k d n w :
  persistent_failure w -> all_fail cfg (put_attempt cfg b k d) n w = true.
Proof.
  apply persistent_all_fail;
    [apply put_attempt_fails | apply put_attempt_oracles].
Qed.

Lemma get_all_fail b k n w :
  persistent_failure w -> all_fail cfg (get_attempt cfg b k) n w = true.
Proof.
  apply persistent_all_fail;
    [apply get_attempt_fails | apply get_attempt_oracles].
Qed.

Lemma presign_all_fail b k x n w :
  persistent_failure w -> all_fail cfg (presign_attempt cfg b k x) n w = true.
Proof.
  apply persistent_all_fail;
    [apply presign_attempt_fails | apply presign_attempt_oracles].
Qed.

Lemma copy_no_removal sb sk db dk :
  keeps any_world (fun ev => negb (is_removal ev)) (copy cfg sb sk db dk).
Proof. unfold copy. keeps_auto. Qed.

End Attempts.

(** ** Existence checks answer an error with [False] or with nothing *)

Lemma obj_exist_sentinel cfg b k t w :
  Exists is_raised (emitted (obj_exist cfg b k t w)) ->
  res (obj_exist cfg b k t w) = Ret (Some false)
  \/ res (obj_exist cfg b k t w) = Ret None.
Proof.
  unfold obj_exist. generalize (_with_prefix cfg b) as pb. intros pb.
  destruct w as [s c n f o rf]. unfold_run.
  unfold S3.bucket_exists, S3.stat_object.
  intros H. run_cases; auto.
  all: exfalso; revert H; event_facts.
Qed.

Lemma bucket_exists_sentinel cfg b w :
  Exists is_raised (emitted (bucket_exists cfg b w)) ->
  res (bucket_exists cfg b w) = Ret (Some false)
  \/ res (bucket_exists cfg b w) = Ret None.
Proof.
  unfold bucket_exists. generalize (_with_prefix cfg b) as pb. intros pb.
  destruct w as [s c n f o rf]. unfold_run.
  unfold S3.bucket_exists.
  intros H. run_cases; auto.
  all: exfalso; revert H; event_facts.
Qed.

(** ** Every raised exception is logged at once *)

Lemma raises_logged_app evs1 evs2 :
  raises_logged evs1 = true -> raises_logged evs2 = true ->
  raises_logged (evs1 ++ evs2) = true.
Proof.
  intros H1 H2. induction evs1 as [|ev evs1 IH]; [done|].
  destruct ev; simpl in *; auto.
  destruct evs1 as [|[] evs1]; simpl in *; try done. by apply IH.
Qed.

Lemma raises_logged_calls evs : Forall is_call evs -> raises_logged evs = true.
Proof.
  induction 1 as [|ev evs Hc _ IH]; [done|]. by destruct ev.
Qed.

Lemma raises_logged_handled evs e evs' :
  raises_logged evs = true -> raises_logged evs' = true ->
  (exists b msg rest, evs' = Log b msg :: rest) ->
  raises_logged (evs ++ Raised e :: evs') = true.
Proof.
  intros H1 H2 (b & msg & rest & ->). apply raises_logged_app; [done|].
  simpl in *. done.
Qed.

Lemma accounts_ret {A} (a : A) : accounts (ret a).
Proof. by intros w. Qed.

Lemma accounts_emit ev : is_raised ev = false -> accounts (emit ev).
Proof. intros H w. simpl. by destruct ev. Qed.

Lemma accounts_get_conn : accounts get_conn.
Proof. by intros w. Qed.

Lemma accounts_put_conn c : accounts (put_conn c).
Proof. by intros w. Qed.

Lemma accounts_raise {A} e : accounts (raise (A:=A) e).
Proof. intros w. by exists []. Qed.

Lemma accounts_plain {A} (m : M A) : plain_calls m -> accounts m.
Proof.
  intros Hm w. specialize (Hm w). destruct (res (m w)).
  - by apply raises_logged_calls.
  - destruct Hm as (calls & Hc & ->). exists calls.
    split; [done | by apply raises_logged_calls].
Qed.

Lemma accounts_call {A} rq (serve : _ -> outcome A * _) :
  accounts (Minio.call rq serve).
Proof. apply accounts_plain, plain_calls_call. Qed.

Lemma accounts_new host ak sk secure : accounts (Minio.new host ak sk secure).
Proof.
  intros w. unfold Minio.new. destruct (refuse w (opened w)); simpl; [|done].
  by eexists [_].
Qed.

Lemma accounts_bind {A B} (m : M A) (k : A -> M B) :
  accounts m -> (forall a, accounts (k a)) -> accounts (bind m k).
Proof.
  intros Hm Hk w. unfold bind. specialize (Hm w).
  destruct (m w) as [[a|e] w1 evs1]; simpl in *; [|done].
  specialize (Hk a w1).
  destruct (k a w1) as [[b|e] w2 evs2]; simpl in *.
  - by apply raises_logged_app.
  - destruct Hk as (evs & -> & He). exists (evs1 ++ evs).
    split; [by rewrite app_assoc | by apply raises_logged_app].
Qed.

(** A handler that starts by logging answers whatever the body raised. *)
Lemma accounts_try_except {A} (body : M A) (handler : exn -> M A) :
  accounts body ->
  (forall e, logs_first (handler e) /\ accounts (handler e)) ->
  accounts (try_except body handler).
Proof.
  intros Hb Hh w. unfold try_except. specialize (Hb w).
  destruct (body w) as [[a|e] w1 evs1]; simpl in *; [done|].
  destruct Hb as (evs & -> & He).
  destruct (Hh e) as [Hl Ha]. specialize (Hl w1). specialize (Ha w1).
  destruct (handler e w1) as [[b|e'] w2 evs2]; simpl in *.
  - rewrite <- app_assoc. simpl. by apply raises_logged_handled.
  - destruct Ha as (evs' & -> & He').
    destruct Hl as (b & msg & rest & Hl).
    exists (evs ++ Raised e :: evs'). split.
    + by rewrite <- !app_assoc.
    + apply raises_logged_handled; [done..|].
      destruct evs' as [|ev evs']; simplify_eq/=; eauto.
Qed.

(** A silent handler is harmless around a body that cannot raise. *)
Lemma accounts_try_total {A} (body : M A) (handler : exn -> M A) :
  total body -> accounts body -> accounts (try_except body handler).
Proof.
  intros Ht Hb w. unfold try_except. specialize (Hb w).
  destruct (Ht w) as [a Ha].
  destruct (body w) as [r w1 evs1]; simpl in *. by subst r.
Qed.

Lemma accounts_for_range {A} n (body : M (option A)) (orelse : M A) :
  accounts body -> accounts orelse -> accounts (for_range n body orelse).
Proof.
  intros Hb Ho. induction n as [|n IH]; simpl; [done|].
  apply accounts_bind; [done|]. intros [a|]; [apply accounts_ret | done].
Qed.

Lemma accounts_for_each {A} (xs : list A) (body : A -> M unit) :
  (forall x, accounts (body x)) -> accounts (for_each xs body).
Proof.
  intros Hb. induction xs as [|x xs IH]; simpl; [apply accounts_ret|].
  apply accounts_bind; [done|]. by intros _.
Qed.

Lemma logs_first_log_bind {A} b msg (k : M A) : logs_first (emit (Log b msg) >> k).
Proof.
  intros w. unfold bind, emit. destruct (k w) as [r w1 evs1]; simpl. eauto.
Qed.

Lemma logs_first_log b msg : logs_first (emit (Log b msg)).
Proof. intros w. simpl. eauto. Qed.

Lemma open_accounts cfg : accounts (__open__ cfg).
Proof.
  intros w. destruct (open_run cfg w) as (-> & -> & _).
  destruct (conn w), (refuse w (opened w)); done.
Qed.

Ltac accounts_auto :=
  unfold_prims;
  repeat (intros; first
    [ apply accounts_ret
    | apply accounts_emit; reflexivity
    | apply accounts_get_conn
    | apply accounts_put_conn
    | apply accounts_raise
    | apply accounts_call
    | apply accounts_new
    | apply open_accounts
    | apply logs_first_log_bind
    | apply logs_first_log
    | apply accounts_try_except
    | apply accounts_for_range
    | apply accounts_for_each
    | apply accounts_bind
    | split
    | match goal with
      | |- accounts (match ?x with _ => _ end) => destruct x
      end ]).

Section Accounts.
Variable cfg : settings.

Lemma put_accounts b k d t : accounts (put cfg b k d t).
Proof. unfold put. accounts_auto. Qed.

Lemma rm_accounts b k t : accounts (rm cfg b k t).
Proof. unfold rm. accounts_auto. Qed.

Lemma get_accounts b k t : accounts (get cfg b k t).
Proof. unfold get. accounts_auto. Qed.

Lemma get_presigned_url_accounts b k x t :
  accounts (get_presigned_url cfg b k x t).
Proof. unfold get_presigned_url. accounts_auto. Qed.

Lemma remove_bucket_accounts b : accounts (remove_bucket cfg b).
Proof. unfold remove_bucket. accounts_auto. Qed.

Lemma copy_accounts sb sk db dk : accounts (copy cfg sb sk db dk).
Proof. unfold copy. accounts_auto. Qed.

Lemma move_accounts sb sk db dk : accounts (move cfg sb sk db dk).
Proof. unfold move. accounts_auto. Qed.

Lemma accounts_total {A} (m : M A) w :
  total m -> accounts m -> raises_logged (emitted (m w)) = true.
Proof.
  intros Ht Ha. specialize (Ha w). destruct (Ht w) as [a Hr].
  by rewrite Hr in Ha.
Qed.

Lemma health_plain : plain_calls (health cfg).
Proof. unfold health. plain_auto. Qed.

Lemma plain_raise_propagates {A} (m : M A) w e :
  plain_calls m -> Raised e ∈ emitted (m w) -> res (m w) = Raise e.
Proof.
  intros Hm Hin. specialize (Hm w). destruct (res (m w)) as [a|e'].
  - rewrite Forall_forall in Hm. by specialize (Hm _ Hin).
  - destruct Hm as (calls & Hc & Heq). rewrite Heq in Hin.
    apply elem_of_app in Hin as [Hin|Hin].
    + rewrite Forall_forall in Hc. by specialize (Hc _ Hin).
    + apply list_elem_of_singleton in Hin. congruence.
Qed.
End Accounts.

(** ** [copy] on a healthy service *)

Ltac reliable_cases Hf :=
  repeat (progress (simpl in *; rewrite ?Hf, ?lookup_insert_eq in *;
                    simplify_eq; try case_match));
  try match goal with H : _ = Some _ |- _ => by rewrite Hf in H end.

Lemma copy_healthy cfg sb sk db dk w :
  connected w -> reliable w ->
  let ps := _with_prefix cfg sb in
  let pd := _with_prefix cfg db in
  let r := copy cfg sb sk db dk w in
  let plan := copy_calls pd dk ps sk (bool_decide (objects w !! pd = None)) in
  is_Some (objects (final r) !! pd)
  /\ connected (final r) /\ reliable (final r)
  /\ match object_at w ps sk with
     | Some data =>
         calls_of (emitted r) = plan
         /\ if decide ((pd, dk) = (ps, sk)) then res r = Ret false
            else res r = Ret true
                 /\ object_at (final r) pd dk = Some data
                 /\ Forall is_call (emitted r)
     | None =>
         res r = Ret false
         /\ calls_of (emitted r) ++ [CopyObject pd dk ps sk] = plan
     end.
Proof.
  unfold copy, copy_calls, object_at, connected, reliable.
  generalize (_with_prefix cfg sb) as ps, (_with_prefix cfg db) as pd.
  intros ps pd. destruct w as [s c n f o rf]. simpl. intros [h ->] Hf.
  unfold_run.
  unfold S3.bucket_exists, S3.make_bucket, S3.stat_object, S3.copy_object.
  reliable_cases Hf.
  all: store_facts.
  all: simplify_eq; try congruence.
  all: try (repeat split; eauto; by repeat constructor).
  all: repeat case_decide; simplify_eq/=.
  all: store_facts.
  all: try (rewrite lookup_empty in *; simplify_eq).
  all: simplify_eq/=; try congruence.
  all: try (repeat split; eauto; by repeat constructor).
Qed.

(** * Properties of the client *)

(** C1, where the code departs from the claim: [move] hands bucket names that
    already carry the prefix to [copy] and [rm], which prefix them again.
    With the prefix "rag", an object stored by [put] in the logical bucket
    "docs" lives in "rag-docs", but [move] probes "rag-rag-docs", finds
    nothing and reports failure. *)
Theorem move_prefixes_twice :
  let r0 := put prefixed_cfg "docs" "b.txt" [x68; x69] None calm_world in
  let r := move prefixed_cfg "docs" "b.txt" "archive" "b.txt" (final r0) in
  _with_prefix prefixed_cfg "docs" = "rag-docs"
  /\ calls_of (emitted r0)
     = [BucketExists "rag-docs"; MakeBucket "rag-docs";
        PutObject "rag-docs" "b.txt" [x68; x69] 2]
  /\ calls_of (emitted r)
     = [BucketExists "rag-rag-archive"; MakeBucket "rag-rag-archive";
        StatObject "rag-rag-docs" "b.txt"]
  /\ res r = Ret false.
Proof. vm_compute. done. Qed.

(** C2 as stated fails: the deletion of the source is best effort.  Here the
    copy goes through, the [remove_object] call times out, [move] still
    returns [True], and the source object is found by [obj_exist] and [get]. *)
Lemma move_true_source_survives :
  let w := glitch_world 4 (OtherError "timed out") in
  let r := move plain_cfg "docs" "a.txt" "archive" "a.txt" w in
  res r = Ret true
  /\ res (obj_exist plain_cfg "docs" "a.txt" None (final r)) = Ret (Some true)
  /\ res (get plain_cfg "docs" "a.txt" None (final r)) = Ret (Some [x68; x69]).
Proof. vm_compute. done. Qed.

(** C2, amended (empty bucket prefix): [move] returns what its [copy]
    returns; when the copy succeeds it goes on to run [rm] on the source and
    returns [True]; when the copy fails it returns [False] and no
    [remove_object] call is made; and after a [move] that returned [True]
    with no exception raised on the way (so the deletion went through),
    [get] on the source returns no result and [obj_exist] does not return
    [True]. *)
Theorem move_contract cfg sb sk db dk w :
  unprefixed cfg ->
  let c := copy cfg sb sk db dk w in
  let r := move cfg sb sk db dk w in
  res r = res c
  /\ (res c = Ret true ->
      emitted r = emitted c ++ emitted (rm cfg sb sk None (final c))
      /\ final r = final (rm cfg sb sk None (final c)))
  /\ (res c = Ret false ->
      Forall (fun ev => negb (is_removal ev)) (emitted r))
  /\ (res r = Ret true -> ~ Exists is_raised (emitted r) ->
      forall t,
        res (get cfg sb sk t (final r)) = Ret None
        /\ (res (obj_exist cfg sb sk t (final r)) = Ret (Some false)
            \/ res (obj_exist cfg sb sk t (final r)) = Ret None)).
Proof.
  intros Hp c r. subst c r.
  pose proof (move_run cfg sb sk db dk w) as Hm. cbv zeta in Hm.
  rewrite !(with_prefix_unprefixed cfg _ Hp) in Hm.
  destruct (copy_no_removal cfg sb sk db dk w) as [_ Hnr].
  destruct Hm as [(Hc & Hr & Hf & He)|(Hc & Hr & Hf & He)].
  - split; [congruence|]. split; [done|]. split; [congruence|].
    intros _ Hclean t. rewrite He in Hclean.
    assert (Habs : object_at (final (move cfg sb sk db dk w)) sb sk = None).
    { rewrite Hf.
      rewrite <- (with_prefix_unprefixed cfg sb Hp) at 3.
      apply rm_clean_deletes. intros H. apply Hclean.
      apply Exists_app. by right. }
    rewrite <- (with_prefix_unprefixed cfg sb Hp) in Habs at 2.
    split; [by apply get_absent | by apply obj_exist_absent].
  - split; [congruence|]. split; [congruence|]. split; [|congruence].
    intros _. rewrite He. apply Forall_app. split; [done|].
    by repeat constructor.
Qed.

(** On a healthy store, the object that was moved is gone from its source. *)
Lemma move_contract_witness :
  unprefixed plain_cfg
  /\ res (get plain_cfg "docs" "a.txt" None
            (final (move plain_cfg "docs" "a.txt" "archive" "b.txt" calm_world)))
     = Ret None.
Proof.
  split; [reflexivity|].
  apply (move_contract plain_cfg "docs" "a.txt" "archive" "b.txt" calm_world).
  - reflexivity.
  - vm_compute. reflexivity.
  - vm_compute. intros H. repeat (apply Exists_cons in H as [H|H]; [done|]).
    by apply Exists_nil in H.
Defined.

(** C9: for every operation that accepts a tenant id ([put], [rm], [get],
    [obj_exist], [get_presigned_url]), two runs that differ only in the
    tenant id give the same result, the same final world and the same
    events: the tenant id influences neither routing nor bucket naming. *)
Theorem tenant_id_unused cfg bucket key data expires (t1 t2 : option string) w :
  put cfg bucket key data t1 w = put cfg bucket key data t2 w
  /\ rm cfg bucket key t1 w = rm cfg bucket key t2 w
  /\ get cfg bucket key t1 w = get cfg bucket key t2 w
  /\ obj_exist cfg bucket key t1 w = obj_exist cfg bucket key t2 w
  /\ get_presigned_url cfg bucket key expires t1 w
     = get_presigned_url cfg bucket key expires t2 w.
Proof. repeat split. Qed.



(** C4 as stated fails for [health]: it has no handler, and an error raised
    by the connection reaches the caller. *)
Lemma health_raises :
  res (health plain_cfg down_world) = Raise (OtherError "timed out").
Proof. vm_compute. reflexivity. Qed.

(** C4, amended: no exception leaves [put], [rm], [get], [obj_exist],
    [bucket_exists], [get_presigned_url], [remove_bucket], [copy] or [move];
    in [put], [rm], [get], [get_presigned_url], [remove_bucket], [copy] and
    [move] every exception raised on the way is followed at once by a log
    record; [obj_exist] and [bucket_exists] answer an exception with [False]
    or with no result; [health] has no handler: an exception raised in it,
    by whichever of its calls, is the outcome its caller gets, and when its
    first call fails that is what happens. *)
Theorem errors_contained cfg :
  (forall b k d t,
     total (put cfg b k d t)
     /\ forall w, raises_logged (emitted (put cfg b k d t w)) = true)
  /\ (forall b k t,
        total (rm cfg b k t)
        /\ forall w, raises_logged (emitted (rm cfg b k t w)) = true)
  /\ (forall b k t,
        total (get cfg b k t)
        /\ forall w, raises_logged (emitted (get cfg b k t w)) = true)
  /\ (forall b k x t,
        total (get_presigned_url cfg b k x t)
        /\ forall w,
             raises_logged (emitted (get_presigned_url cfg b k x t w)) = true)
  /\ (forall b,
        total (remove_bucket cfg b)
        /\ forall w, raises_logged (emitted (remove_bucket cfg b w)) = true)
  /\ (forall sb sk db dk,
        total (copy cfg sb sk db dk)
        /\ forall w, raises_logged (emitted (copy cfg sb sk db dk w)) = true)
  /\ (forall sb sk db dk,
        total (move cfg sb sk db dk)
        /\ forall w, raises_logged (emitted (move cfg sb sk db dk w)) = true)
  /\ (forall b k t,
        total (obj_exist cfg b k t)
        /\ forall w,
             Exists is_raised (emitted (obj_exist cfg b k t w)) ->
             res (obj_exist cfg b k t w) = Ret (Some false)
             \/ res (obj_exist cfg b k t w) = Ret None)
  /\ (forall b,
        total (bucket_exists cfg b)
        /\ forall w,
             Exists is_raised (emitted (bucket_exists cfg b w)) ->
             res (bucket_exists cfg b w) = Ret (Some false)
             \/ res (bucket_exists cfg b w) = Ret None)
  /\ (forall w e,
        Raised e ∈ emitted (health cfg w) -> res (health cfg w) = Raise e)
  /\ (forall w h e,
        conn w = Some h -> fault w (clock w) = Some e ->
        res (health cfg w) = Raise e).
Proof.
  split; [intros; split;
            [apply put_total
            |intros; apply accounts_total;
               [apply put_total | apply put_accounts]]|].
  split; [intros; split;
            [apply rm_total
            |intros; apply accounts_total;
               [apply rm_total | apply rm_accounts]]|].
  split; [intros; split;
            [apply get_total
            |intros; apply accounts_total;
               [apply get_total | apply get_accounts]]|].
  split; [intros; split;
            [apply get_presigned_url_total
            |intros; apply accounts_total;
               [apply get_presigned_url_total
               |apply get_presigned_url_accounts]]|].
  split; [intros; split;
            [apply remove_bucket_total
            |intros; apply accounts_total;
               [apply remove_bucket_total | apply remove_bucket_accounts]]|].
  split; [intros; split;
            [apply copy_total
            |intros; apply accounts_total;
               [apply copy_total | apply copy_accounts]]|].
  split; [intros; split;
            [apply move_total
            |intros; apply accounts_total;
               [apply move_total | apply move_accounts]]|].
  split; [intros; split; [apply obj_exist_total | apply obj_exist_sentinel]|].
  split; [intros; split; [apply bucket_exists_total | apply bucket_exists_sentinel]|].
  split; [intros w e; apply plain_raise_propagates, health_plain|].
  intros w h e Hc Hf. unfold health. unfold_run. by rewrite Hc, Hf.
Qed.

(** C5, where the code departs from the claim: an [S3Error] whose code is
    not one of the three not-found codes is caught by the [S3Error] handler,
    which then falls off the end: [obj_exist] and [bucket_exists] return
    [None] rather than [False], and nothing is logged. *)
Theorem s3error_neither_false_nor_logged :
  let e := S3Error "AccessDenied" "Access Denied." in
  let r := obj_exist plain_cfg "docs" "a.txt" None (glitch_world 1 e) in
  let r' := bucket_exists plain_cfg "docs" (glitch_world 0 e) in
  not_found_code "AccessDenied" = false
  /\ res r = Ret None
  /\ emitted r = [Call 0 (BucketExists "docs");
                  Call 0 (StatObject "docs" "a.txt"); Raised e]
  /\ res r' = Ret None
  /\ emitted r' = [Call 0 (BucketExists "docs"); Raised e].
Proof. vm_compute. done. Qed.

(** C6: when nothing fails, [get] after [put] on the same bucket and key
    returns the bytes that were put.  Nothing failing includes the client
    sending the requests: the prefixed bucket name and the key are names it
    accepts. *)
Theorem put_get_roundtrip cfg bucket key data t t' w :
  no_failures w ->
  accepted_bucket (_with_prefix cfg bucket) = true ->
  accepted_key key = true ->
  res (get cfg bucket key t' (final (put cfg bucket key data t w)))
  = Ret (Some data).
Proof.
  intros Hw _ _.
  destruct (put_stores cfg bucket key data t w Hw) as (_ & Hobj & Hc & Hf & _).
  by apply get_present.
Qed.

(** On a healthy store, what was put is what is read back. *)
Lemma put_get_roundtrip_witness :
  no_failures calm_world
  /\ accepted_bucket (_with_prefix plain_cfg "docs") = true
  /\ accepted_key "b.txt" = true
  /\ res (get plain_cfg "docs" "b.txt" None
            (final (put plain_cfg "docs" "b.txt" [x6f; x6b] None calm_world)))
     = Ret (Some [x6f; x6b]).
Proof.
  split; [by split|]. split; [reflexivity|]. split; [reflexivity|].
  apply (put_get_roundtrip plain_cfg "docs" "b.txt" [x6f; x6b] None None
           calm_world); [by split | reflexivity | reflexivity].
Defined.

(** C7: [copy] returns a boolean and never raises.  Its remote calls are an
    initial segment of: [bucket_exists] on the destination bucket,
    [make_bucket] when that bucket is absent, [stat_object] on the source,
    [copy_object].  It returns [True] exactly when nothing was raised; then
    the whole sequence was issued, the source object existed and the
    destination now holds its bytes.  When it returns [False] a log record
    was written.  When the source object is absent it returns [False] and
    no [copy_object] call is issued.

    On a connected client, with no remote call failing and names the client
    accepts, it does all of it: the destination bucket exists afterwards;
    when the source object is absent the calls are the sequence up to the
    probe and the result is [False]; when it is present the whole sequence
    is issued, and the result is [True] with the bytes of the source at the
    destination, unless source and destination are the same object, a copy
    that the service refuses ([False]). *)
Theorem copy_contract cfg sb sk db dk w :
  let ps := _with_prefix cfg sb in
  let pd := _with_prefix cfg db in
  let r := copy cfg sb sk db dk w in
  let plan := copy_calls pd dk ps sk (bool_decide (objects w !! pd = None)) in
  (res r = Ret true \/ res r = Ret false)
  /\ calls_of (emitted r) `prefix_of` plan
  /\ (res r = Ret true <-> ~ Exists is_raised (emitted r))
  /\ (res r = Ret true ->
      calls_of (emitted r) = plan
      /\ is_Some (object_at w ps sk)
      /\ object_at (final r) pd dk = object_at w ps sk)
  /\ (res r = Ret false -> Exists is_log (emitted r))
  /\ (object_at w ps sk = None ->
      res r = Ret false /\ Forall (fun ev => negb (is_copy ev)) (emitted r))
  /\ (connected w -> reliable w ->
      accepted_bucket ps = true -> accepted_key sk = true ->
      accepted_bucket pd = true -> accepted_key dk = true ->
      is_Some (objects (final r) !! pd)
      /\ match object_at w ps sk with
         | Some data =>
             calls_of (emitted r) = plan
             /\ if decide ((pd, dk) = (ps, sk)) then res r = Ret false
                else res r = Ret true
                     /\ object_at (final r) pd dk = Some data
         | None =>
             res r = Ret false
             /\ calls_of (emitted r) ++ [CopyObject pd dk ps sk] = plan
         end).
Proof.
  intros ps pd r plan.
  assert (Hgood : connected w -> reliable w ->
            is_Some (objects (final r) !! pd)
            /\ match object_at w ps sk with
               | Some data =>
                   calls_of (emitted r) = plan
                   /\ if decide ((pd, dk) = (ps, sk)) then res r = Ret false
                      else res r = Ret true
                           /\ object_at (final r) pd dk = Some data
               | None =>
                   res r = Ret false
                   /\ calls_of (emitted r) ++ [CopyObject pd dk ps sk] = plan
               end).
  { intros Hc Hf.
    destruct (copy_healthy cfg sb sk db dk w Hc Hf) as (Hb & _ & _ & Hm).
    split; [done|]. fold ps pd r plan in Hm.
    destruct (object_at w ps sk); [|done].
    destruct Hm as [Hcalls Hm]. split; [done|].
    destruct (decide ((pd, dk) = (ps, sk))); [done | tauto]. }
  cut ((res r = Ret true \/ res r = Ret false)
       /\ calls_of (emitted r) `prefix_of` plan
       /\ (res r = Ret true <-> ~ Exists is_raised (emitted r))
       /\ (res r = Ret true ->
           calls_of (emitted r) = plan
           /\ is_Some (object_at w ps sk)
           /\ object_at (final r) pd dk = object_at w ps sk)
       /\ (res r = Ret false -> Exists is_log (emitted r))
       /\ (object_at w ps sk = None ->
           res r = Ret false
           /\ Forall (fun ev => negb (is_copy ev)) (emitted r))).
  { intros (H1 & H2 & H3 & H4 & H5 & H6).
    repeat (split; [assumption|]). intros Hc Hf _ _ _ _. by apply Hgood. }
  clear Hgood. subst ps pd r plan.
  unfold copy, copy_calls, object_at.
  generalize (_with_prefix cfg sb) as ps, (_with_prefix cfg db) as pd.
  intros ps pd. destruct w as [s c n f o rf].
  unfold_run.
  unfold S3.bucket_exists, S3.make_bucket, S3.stat_object, S3.copy_object.
  simpl.
  run_cases.
  all: store_facts.
  all: repeat split; intros; simplify_eq/=; event_facts; eauto.
  all: try by eexists.
  all: try by rewrite lookup_insert_eq.
  all: try (exfalso;
            match goal with
            | H : ¬ (_ \/ _) |- _ => apply H; event_facts
            | H : ¬ Exists _ _ |- _ => apply H; event_facts
            end).
  all: try (case_decide; [|done]; simpl; rewrite lookup_insert_eq; congruence).
Qed.

(** On a healthy store, copying "a.txt" from "docs" to a bucket that does
    not exist yet creates the bucket and puts the bytes there. *)
Lemma copy_contract_witness :
  let r := copy plain_cfg "docs" "a.txt" "archive" "b.txt" calm_world in
  res r = Ret true
  /\ calls_of (emitted r)
     = [BucketExists "archive"; MakeBucket "archive";
        StatObject "docs" "a.txt"; CopyObject "archive" "b.txt" "docs" "a.txt"]
  /\ object_at (final r) "archive" "b.txt" = Some [x68; x69].
Proof.
  destruct (copy_contract plain_cfg "docs" "a.txt" "archive" "b.txt" calm_world)
    as (_ & _ & _ & _ & _ & _ & H).
  destruct H as [_ [Hcalls H]];
    [by eexists | done | reflexivity | reflexivity | reflexivity | reflexivity|].
  destruct H as [Hres Hobj]. split; [exact Hres|]. split; [exact Hcalls|].
  exact Hobj.
Defined.

(** C8 as stated fails: [rm] logs a failure and leaves the connection as it
    was; nothing is dropped and no client is built. *)
Lemma rm_failure_keeps_connection :
  let r := rm plain_cfg "docs" "a.txt" None down_world in
  emitted r = [Call 0 (RemoveObject "docs" "a.txt");
               Raised (OtherError "timed out");
               Log true "Fail to remove docs/a.txt:"]
  /\ conn (final r) = conn down_world
  /\ opened (final r) = opened down_world.
Proof. vm_compute. done. Qed.

(** C8, amended: the reconnect drops the current handle, if there is one,
    and builds a client from the static configuration without transport
    security; the new handle replaces the old one, or none is held when the
    construction fails.  [put], [get] and [get_presigned_url] run it after
    every failed attempt.  [rm], [copy], [move], [obj_exist],
    [bucket_exists] and [remove_bucket] never run it: they leave the client
    state as it was. *)
Theorem reconnect_only_when_retrying cfg w :
  (let r := __open__ cfg w in
   res r = Ret tt
   /\ emitted r =
        match conn w with Some h => [Discard h] | None => [] end
        ++ Connect (MINIO_host cfg) (MINIO_user cfg) (MINIO_password cfg) false
        :: match refuse w (opened w) with
           | Some e => [Raised e;
                        Log true ("Fail to connect " ++ MINIO_host cfg ++ " ")]
           | None => []
           end
   /\ conn (final r) =
        match refuse w (opened w) with
        | Some _ => None
        | None => Some (opened w)
        end)
  /\ (forall b k d t,
        retries cfg ("Fail to put " ++ b ++ "/" ++ k ++ ":") 3
          (put cfg b k d t w))
  /\ (forall b k t,
        retries cfg ("Fail to get " ++ _with_prefix cfg b ++ "/" ++ k) 1
          (get cfg b k t w))
  /\ (forall b k x t,
        retries cfg
          ("Fail to get_presigned " ++ _with_prefix cfg b ++ "/" ++ k ++ ":")
          10 (get_presigned_url cfg b k x t w))
  /\ (forall b k t, keeps same_client no_reconnect (rm cfg b k t))
  /\ (forall sb sk db dk, keeps same_client no_reconnect (copy cfg sb sk db dk))
  /\ (forall sb sk db dk, keeps same_client no_reconnect (move cfg sb sk db dk))
  /\ (forall b k t, keeps same_client no_reconnect (obj_exist cfg b k t))
  /\ (forall b, keeps same_client no_reconnect (bucket_exists cfg b))
  /\ (forall b, keeps same_client no_reconnect (remove_bucket cfg b)).
Proof.
  split.
  { destruct (open_run cfg w) as (H1 & H2 & H3 & _). done. }
  split.
  { intros b k d t. rewrite put_unfold.
    destruct (retry_shape cfg ("Fail to put " ++ b ++ "/" ++ k ++ ":")
                (put_attempt cfg b k d) (put_attempt_plain cfg b k d)
                (put_attempt_returns cfg b k d) 3 w)
      as (atts & last & H). exists atts, last. tauto. }
  split.
  { intros b k t. rewrite get_unfold.
    destruct (retry_shape cfg
                ("Fail to get " ++ _with_prefix cfg b ++ "/" ++ k)
                (get_attempt cfg b k) (get_attempt_plain cfg b k)
                (get_attempt_returns cfg b k) 1 w)
      as (atts & last & H). exists atts, last. tauto. }
  split.
  { intros b k x t. rewrite get_presigned_url_unfold.
    destruct (retry_shape cfg
                ("Fail to get_presigned " ++ _with_prefix cfg b ++ "/" ++ k
                 ++ ":")
                (presign_attempt cfg b k x) (presign_attempt_plain cfg b k x)
                (presign_attempt_returns cfg b k x) 10 w)
      as (atts & last & H). exists atts, last. tauto. }
  split; [intros; apply rm_quiet|].
  split; [intros; apply copy_quiet|].
  split; [intros; apply move_quiet|].
  split; [intros; apply obj_exist_quiet|].
  split; [intros; apply bucket_exists_quiet|].
  intros; apply remove_bucket_quiet.
Qed.

(** C10: [move] returns what its internal [copy] returns, whatever happens
    to the deletion that follows; and there is a run in which [move] returns
    [True], the [remove_object] call has failed, and the source object is
    still in the store. *)
Theorem move_result_is_copy_result :
  (forall cfg sb sk db dk w,
     res (move cfg sb sk db dk w)
     = res (copy cfg (_with_prefix cfg sb) sk (_with_prefix cfg db) dk w))
  /\ (let w := glitch_world 4 (OtherError "timed out") in
      let r := move plain_cfg "docs" "a.txt" "archive" "b.txt" w in
      res r = Ret true
      /\ emitted r
         = [Call 0 (BucketExists "archive"); Call 0 (MakeBucket "archive");
            Call 0 (StatObject "docs" "a.txt");
            Call 0 (CopyObject "archive" "b.txt" "docs" "a.txt");
            Call 0 (RemoveObject "docs" "a.txt");
            Raised (OtherError "timed out");
            Log true "Fail to remove docs/a.txt:"]
      /\ object_at (final r) "docs" "a.txt" = Some [x68; x69]).
Proof.
  split.
  - intros cfg sb sk db dk w.
    pose proof (move_run cfg sb sk db dk w) as Hm. cbv zeta in Hm.
    destruct Hm as [(Hc & Hr & _)|(Hc & Hr & _)]; congruence.
  - vm_compute. done.
Qed.

(** * Further lemmas *)

(** ** Bucket names *)

Lemma string_app_inj_l (p s t : string) : (p ++ s = p ++ t)%string -> s = t.
Proof. induction p as [|a p IH]; simpl; intros H; [done|]. apply IH. by injection H. Qed.

(** ** Effects on the store *)

#[global] Instance same_objects_preorder : PreOrder same_objects.
Proof.
  split; [by intros w|]. unfold same_objects. intros w1 w2 w3 H1 H2. congruence.
Qed.

#[global] Instance only_object_preorder pb k : PreOrder (only_object pb k).
Proof.
  split.
  - intros w. unfold only_object. done.
  - intros w1 w2 w3 H1 H2. unfold only_object in *.
    intros b' k' Hne. rewrite H2, H1; done.
Qed.

#[global] Instance only_bucket_preorder pb : PreOrder (only_bucket pb).
Proof.
  split.
  - intros w. unfold only_bucket. done.
  - intros w1 w2 w3 H1 H2. unfold only_bucket in *.
    intros b' Hne. rewrite H2, H1; done.
Qed.

#[global] Instance bucket_kept_preorder pb : PreOrder (bucket_kept pb).
Proof.
  split.
  - intros w. unfold bucket_kept. done.
  - intros w1 w2 w3 H1 H2. unfold bucket_kept in *. auto.
Qed.

Section KeepsServe.
Context (I : relation world) `{!PreOrder I} (E : event -> bool).

(** A remote call keeps [I] when the answer of the service does. *)
Lemma keeps_call_serve {A} rq (serve : _ -> outcome A * _) :
  (forall w, I w (tick w)) ->
  (forall w, I w (set_objects (serve (objects w)).2 (tick w))) ->
  (forall h, E (Call h rq)) -> (forall e, E (Raised e)) ->
  keeps I E (Minio.call rq serve).
Proof.
  intros Ht Hs Hc Hr w. unfold Minio.call.
  destruct (conn w) as [h|]; simpl.
  - destruct (fault w (clock w)) as [e|]; simpl.
    + split; [done | repeat constructor; done].
    + specialize (Hs w).
      destruct (serve (objects w)) as [r s']. simpl in *. split; [done|].
      destruct r; repeat constructor; done.
  - split; [reflexivity | repeat constructor; done].
Qed.

End KeepsServe.

(** What each request does to the store. *)

Lemma serve_bucket_exists b s : (S3.bucket_exists b s).2 = s.
Proof. unfold S3.bucket_exists. by destruct (s !! b). Qed.

Lemma serve_get_object b k s : (S3.get_object b k s).2 = s.
Proof. unfold S3.get_object. destruct (s !! b) as [o|]; [|done]. by destruct (o !! k). Qed.

Lemma serve_stat_object b k s : (S3.stat_object b k s).2 = s.
Proof. unfold S3.stat_object. destruct (s !! b) as [o|]; [|done]. by destruct (o !! k). Qed.

Lemma serve_bucket_location b s : (S3.bucket_location b s).2 = s.
Proof. unfold S3.bucket_location. by destruct (s !! b). Qed.

Lemma serve_list_objects b s : (S3.list_objects b s).2 = s.
Proof. unfold S3.list_objects. by destruct (s !! b). Qed.


Lemma make_bucket_only_object pb b k w :
  only_object b k w (set_objects (S3.make_bucket pb (objects w)).2 (tick w)).
Proof.
  intros b' k' _. unfold object_at, S3.make_bucket. simpl.
  destruct (objects w !! pb) eqn:Hpb; simpl; [done|].
  destruct (decide (pb = b')) as [<-|Hne].
  - by rewrite lookup_insert_eq, Hpb.
  - by rewrite lookup_insert_ne.
Qed.

Lemma put_object_only_object pb k data w :
  only_object pb k w (set_objects (S3.put_object pb k data (objects w)).2 (tick w)).
Proof.
  intros b' k' Hne. unfold object_at, S3.put_object. simpl.
  destruct (objects w !! pb) as [objs|] eqn:Hpb; simpl; [|done].
  destruct (decide (pb = b')) as [<-|Hb].
  - rewrite lookup_insert_eq, Hpb. simpl.
    apply lookup_insert_ne. congruence.
  - by rewrite lookup_insert_ne.
Qed.

Lemma remove_object_only_object pb k w :
  only_object pb k w (set_objects (S3.remove_object pb k (objects w)).2 (tick w)).
Proof.
  intros b' k' Hne. unfold object_at, S3.remove_object. simpl.
  destruct (objects w !! pb) as [objs|] eqn:Hpb; simpl; [|done].
  destruct (decide (pb = b')) as [<-|Hb].
  - rewrite lookup_insert_eq, Hpb. simpl.
    apply lookup_delete_ne. congruence.
  - by rewrite lookup_insert_ne.
Qed.

Lemma copy_object_only_object pd dk ps sk w :
  only_object pd dk w
    (set_objects (S3.copy_object pd dk ps sk (objects w)).2 (tick w)).
Proof.
  intros b' k' Hne. unfold object_at, S3.copy_object. simpl.
  destruct (objects w !! ps) as [sobjs|]; simpl; [|done].
  destruct (sobjs !! sk) as [data|]; simpl; [|done].
  destruct (objects w !! pd) as [dobjs|] eqn:Hpd; simpl; [|done].
  case_decide; simpl; [done|].
  destruct (decide (pd = b')) as [<-|Hb].
  - rewrite lookup_insert_eq, Hpd. simpl.
    apply lookup_insert_ne. congruence.
  - by rewrite lookup_insert_ne.
Qed.

Lemma unchanged_only_object {A} (serve : _ -> outcome A * _) pb k w :
  (forall s, (serve s).2 = s) ->
  only_object pb k w (set_objects (serve (objects w)).2 (tick w)).
Proof. intros H b' k' _. unfold object_at. simpl. by rewrite H. Qed.

Lemma unchanged_same_objects {A} (serve : _ -> outcome A * _) w :
  (forall s, (serve s).2 = s) ->
  same_objects w (set_objects (serve (objects w)).2 (tick w)).
Proof. intros H. unfold same_objects. simpl. by rewrite H. Qed.

Ltac frame_side :=
  intros;
  solve [ apply _
        | done
        | exact I
        | apply make_bucket_only_object
        | apply put_object_only_object
        | apply remove_object_only_object
        | apply copy_object_only_object
        | apply unchanged_only_object;
            first [ apply serve_bucket_exists | apply serve_get_object
                  | apply serve_stat_object | apply serve_list_objects
                  | apply serve_bucket_location | done ]
        | apply unchanged_same_objects;
            first [ apply serve_bucket_exists | apply serve_get_object
                  | apply serve_stat_object | apply serve_list_objects
                  | apply serve_bucket_location | done ]
        | intros ? ?; done ].

Ltac frame_auto :=
  unfold_prims;
  repeat (intros; first
    [ match goal with |- PreOrder _ => apply _ end
    | apply keeps_ret
    | apply keeps_emit; frame_side
    | apply keeps_get_conn
    | apply keeps_put_conn; frame_side
    | apply keeps_new; frame_side
    | apply keeps_raise; frame_side
    | apply keeps_call_serve; frame_side
    | apply keeps_bind
    | apply keeps_try_except
    | apply keeps_for_range
    | apply keeps_for_each
    | match goal with
      | |- keeps _ _ (match ?x with _ => _ end) => destruct x
      end ]).

Section StoreEffects.
Variable cfg : settings.

Lemma get_same_objects b k t : keeps same_objects any_event (get cfg b k t).
Proof. unfold get, __open__, __close__. frame_auto. Qed.

Lemma obj_exist_same_objects b k t :
  keeps same_objects any_event (obj_exist cfg b k t).
Proof. unfold obj_exist. frame_auto. Qed.

Lemma bucket_exists_same_objects b :
  keeps same_objects any_event (bucket_exists cfg b).
Proof. unfold bucket_exists. frame_auto. Qed.

Lemma get_presigned_url_same_objects b k x t :
  keeps same_objects any_event (get_presigned_url cfg b k x t).
Proof. unfold get_presigned_url, __open__, __close__. frame_auto. Qed.

Lemma put_only_object b k d t :
  keeps (only_object (_with_prefix cfg b) k) any_event (put cfg b k d t).
Proof. unfold put, __open__, __close__. frame_auto. Qed.

Lemma rm_only_object b k t :
  keeps (only_object (_with_prefix cfg b) k) any_event (rm cfg b k t).
Proof. unfold rm. frame_auto. Qed.

Lemma copy_only_object sb sk db dk :
  keeps (only_object (_with_prefix cfg db) dk) any_event (copy cfg sb sk db dk).
Proof. unfold copy. frame_auto. Qed.

End StoreEffects.

(** ** Outcome of a retry loop *)

Section RetryOutcome.
Context {A : Type} (cfg : settings) (msg : string).
Variable attempt : M (option (option A)).
Hypothesis attempt_returns :
  forall w x, res (attempt w) = Ret x -> exists a, x = Some (Some a).

(** The loop hands back nothing exactly when every attempt failed. *)
Lemma retry_none_iff n w :
  res (retry_loop cfg msg attempt n w) = Ret None
  <-> all_fail cfg attempt n w = true.
Proof.
  revert w. induction n as [|n IH]; intros w; [done|].
  simpl. unfold fails.
  destruct (res (attempt w)) as [x|e] eqn:Ha.
  - destruct (attempt_returns w x Ha) as [a ->].
    destruct (loop_step_ok cfg msg attempt n w (Some a) Ha) as (-> & _).
    simpl. split; intros; discriminate.
  - destruct (loop_step_fail cfg msg attempt n w e Ha) as (-> & _).
    simpl. apply IH.
Qed.

(** A result handed back is the result of an attempt, made in a world
    reached from the start by failed rounds; the loop ends right there. *)
Lemma retry_success (P : world -> Prop) n w v :
  (forall w, P w -> P (next_round cfg attempt w)) ->
  P w ->
  res (retry_loop cfg msg attempt n w) = Ret (Some v) ->
  exists w',
    P w'
    /\ res (attempt w') = Ret (Some (Some v))
    /\ final (retry_loop cfg msg attempt n w) = final (attempt w').
Proof.
  intros HP. revert w. induction n as [|n IH]; intros w Hw; [done|].
  destruct (res (attempt w)) as [x|e] eqn:Ha.
  - destruct (attempt_returns w x Ha) as [a ->].
    destruct (loop_step_ok cfg msg attempt n w (Some a) Ha) as (-> & -> & _).
    intros [= <-]. eauto.
  - destruct (loop_step_fail cfg msg attempt n w e Ha) as (-> & -> & _).
    intros H. apply IH; [|done]. by apply HP.
Qed.

End RetryOutcome.

(** ** What a returned result means *)

Lemma put_attempt_sound cfg b k data w x :
  res (put_attempt cfg b k data w) = Ret x ->
  x = Some (Some (S3.WriteResult (_with_prefix cfg b) k))
  /\ object_at (final (put_attempt cfg b k data w)) (_with_prefix cfg b) k
     = Some data.
Proof.
  unfold put_attempt, object_at.
  generalize (_with_prefix cfg b) as pb. intros pb.
  destruct w as [s c n f o rf]. unfold_run.
  unfold S3.bucket_exists, S3.make_bucket, S3.put_object.
  intros H. run_cases.
  all: rewrite ?lookup_insert_eq; simpl; rewrite ?lookup_insert_eq, ?firstn_all; done.
Qed.

Lemma get_attempt_sound cfg b k w x :
  res (get_attempt cfg b k w) = Ret x ->
  exists data, x = Some (Some data)
               /\ object_at w (_with_prefix cfg b) k = Some data.
Proof.
  unfold get_attempt, object_at.
  generalize (_with_prefix cfg b) as pb. intros pb.
  destruct w as [s c n f o rf]. unfold_run. unfold S3.get_object.
  intros H. run_cases. eauto.
Qed.



Lemma copy_ok cfg sb sk db dk w data :
  connected w -> reliable w ->
  object_at w (_with_prefix cfg sb) sk = Some data ->
  (_with_prefix cfg db, dk) <> (_with_prefix cfg sb, sk) ->
  let r := copy cfg sb sk db dk w in
  res r = Ret true
  /\ object_at (final r) (_with_prefix cfg db) dk = Some data
  /\ connected (final r) /\ reliable (final r)
  /\ Forall is_call (emitted r).
Proof.
  intros Hc Hf Hsrc Hne.
  destruct (copy_healthy cfg sb sk db dk w Hc Hf) as (_ & Hc' & Hf' & Hm).
  rewrite Hsrc in Hm. destruct Hm as [_ Hm].
  rewrite decide_False in Hm by done. cbv zeta in *. tauto.
Qed.

(** ** Existence checks *)

Lemma obj_exist_true_present cfg b k t w :
  res (obj_exist cfg b k t w) = Ret (Some true) ->
  is_Some (object_at w (_with_prefix cfg b) k).
Proof.
  unfold obj_exist, object_at. generalize (_with_prefix cfg b) as pb. intros pb.
  destruct w as [s c n f o rf]. unfold_run.
  unfold S3.bucket_exists, S3.stat_object.
  intros H. run_cases. all: store_facts; eauto.
Qed.

Lemma obj_exist_exact cfg b k t w :
  connected w -> reliable w ->
  res (obj_exist cfg b k t w)
  = Ret (Some (bool_decide (is_Some (object_at w (_with_prefix cfg b) k)))).
Proof.
  unfold obj_exist, object_at, connected, reliable.
  generalize (_with_prefix cfg b) as pb. intros pb.
  destruct w as [s c n f o rf]. simpl. intros [h ->] Hf.
  unfold_run. unfold S3.bucket_exists, S3.stat_object.
  reliable_cases Hf.
  all: store_facts; simpl.
  all: try (rewrite bool_decide_eq_true_2 by eauto; done).
  all: try (rewrite bool_decide_eq_false_2 by (by intros [? ?]); done).
  all: done.
Qed.

Lemma bucket_exists_true_present cfg b w :
  res (bucket_exists cfg b w) = Ret (Some true) ->
  is_Some (objects w !! _with_prefix cfg b).
Proof.
  unfold bucket_exists. generalize (_with_prefix cfg b) as pb. intros pb.
  destruct w as [s c n f o rf]. unfold_run. unfold S3.bucket_exists.
  intros H. run_cases. all: eauto.
Qed.

(** ** Bucket names *)

Lemma with_prefix_inj cfg b1 b2 :
  _with_prefix cfg b1 = _with_prefix cfg b2 -> b1 = b2.
Proof.
  unfold _with_prefix.
  destruct (nonempty (or_empty (MINIO_BUCKET_PREFIX cfg))); [|done].
  intros H. apply string_app_inj_l in H. by apply (string_app_inj_l "-") in H.
Qed.

(** ** Deleting *)

Lemma rm_present_bucket cfg b k t w objs :
  connected w -> fault w (clock w) = None ->
  objects w !! _with_prefix cfg b = Some objs ->
  let r := rm cfg b k t w in
  objects (final r) = <[_with_prefix cfg b := delete k objs]> (objects w)
  /\ Forall is_call (emitted r).
Proof.
  unfold rm, connected. generalize (_with_prefix cfg b) as pb. intros pb.
  destruct w as [s c n f o rf]. simpl. intros [h ->] Hf Hb.
  unfold_run. unfold S3.remove_object. simpl. rewrite Hf, Hb. simpl.
  split; [done | by repeat constructor].
Qed.

Lemma rm_missing_bucket cfg b k t w :
  connected w -> fault w (clock w) = None ->
  objects w !! _with_prefix cfg b = None ->
  let r := rm cfg b k t w in
  objects (final r) = objects w
  /\ Exists is_log (emitted r).
Proof.
  unfold rm, connected. generalize (_with_prefix cfg b) as pb. intros pb.
  destruct w as [s c n f o rf]. simpl. intros [h ->] Hf Hb.
  unfold_run. unfold S3.remove_object. simpl. rewrite Hf, Hb. simpl.
  split; [done | event_facts].
Qed.

(** ** An attempt of [put] on a healthy store *)

Lemma put_attempt_ok cfg b k data w :
  connected w -> reliable w ->
  let r := put_attempt cfg b k data w in
  res r = Ret (Some (Some (S3.WriteResult (_with_prefix cfg b) k)))
  /\ object_at (final r) (_with_prefix cfg b) k = Some data
  /\ conn (final r) = conn w
  /\ Forall is_call (emitted r).
Proof.
  unfold put_attempt, object_at, connected, reliable.
  generalize (_with_prefix cfg b) as pb. intros pb.
  destruct w as [s c n f o rf]. simpl. intros [h ->] Hf.
  unfold_run. unfold S3.bucket_exists, S3.make_bucket, S3.put_object.
  reliable_cases Hf.
  all: rewrite ?lookup_insert_eq; simpl; rewrite ?lookup_insert_eq, ?firstn_all.
  all: repeat split; try done; by repeat constructor.
Qed.

(** ** Tearing a bucket down *)

Lemma lookup_delete_all (ks : list string) (m : gmap string bytes) k :
  foldl (fun m k => delete k m) m ks !! k
  = if decide (k ∈ ks) then None else m !! k.
Proof.
  revert m. induction ks as [|k' ks IH]; intros m; simpl; [done|].
  rewrite IH. destruct (decide (k ∈ ks)) as [Hin|Hnin].
  - rewrite decide_True; [done|]. by right.
  - destruct (decide (k = k')) as [->|Hne].
    + rewrite lookup_delete_eq. rewrite decide_True; [done|]. by left.
    + rewrite lookup_delete_ne by done. rewrite decide_False; [done|].
      intros H. apply elem_of_cons in H as [?|?]; done.
Qed.

Lemma delete_all_keys (m : gmap string bytes) :
  foldl (fun m k => delete k m) m (map_to_list m).*1 = ∅.
Proof.
  apply map_empty. intros k. rewrite lookup_delete_all.
  destruct (decide (k ∈ (map_to_list m).*1)) as [|Hnin]; [done|].
  destruct (m !! k) as [v|] eqn:Hk; [|done].
  exfalso. apply Hnin. apply list_elem_of_fmap. exists (k, v).
  split; [done|]. by apply elem_of_map_to_list.
Qed.

Lemma remove_object_run pb k w h objs :
  conn w = Some h -> fault w (clock w) = None ->
  objects w !! pb = Some objs ->
  Minio.remove_object pb k w
  = Run (Ret tt) (set_objects (<[pb:=delete k objs]> (objects w)) (tick w))
        [Call h (RemoveObject pb k)].
Proof.
  intros Hc Hf Hobj. unfold Minio.remove_object, Minio.call, S3.remove_object.
  by rewrite Hc, Hf, Hobj.
Qed.

Lemma for_each_remove_ok pb (ks : list string) w h objs :
  conn w = Some h -> reliable w -> objects w !! pb = Some objs ->
  let r := for_each ks (fun k => Minio.remove_object pb k) w in
  res r = Ret tt
  /\ conn (final r) = Some h
  /\ fault (final r) = fault w
  /\ clock (final r) = length ks + clock w
  /\ objects (final r)
     = <[pb := foldl (fun m k => delete k m) objs ks]> (objects w)
  /\ Forall is_call (emitted r).
Proof.
  revert w objs. induction ks as [|k ks IH]; intros w objs Hc Hf Hobj.
  - simpl. repeat split; try done. by rewrite insert_id.
  - simpl. unfold bind.
    rewrite (remove_object_run pb k w h objs Hc (Hf (clock w)) Hobj).
    set (w1 := set_objects (<[pb:=delete k objs]> (objects w)) (tick w)).
    destruct (IH w1 (delete k objs)) as (Hr & Hc' & Hf' & Hcl & Ho & He).
    { done. } { intros n. apply Hf. } { apply lookup_insert_eq. }
    destruct (for_each ks _ w1) as [r w2 evs]. simpl in *. subst r.
    repeat split; try done.
    + lia.
    + by rewrite Ho, insert_insert_eq.
    + by constructor.
Qed.

Lemma remove_bucket_ok cfg b w :
  connected w -> reliable w ->
  let r := remove_bucket cfg b w in
  res r = Ret tt
  /\ objects (final r) = delete (_with_prefix cfg b) (objects w)
  /\ Forall is_call (emitted r).
Proof.
  unfold remove_bucket, connected.
  generalize (_with_prefix cfg b) as pb. intros pb [h Hc] Hf.
  unfold try_except, bind, Minio.bucket_exists, Minio.list_objects,
    Minio.remove_bucket, Minio.call.
  unfold S3.bucket_exists, S3.list_objects.
  rewrite Hc, (Hf (clock w)). simpl.
  destruct (objects w !! pb) as [objs|] eqn:Hobj; simpl.
  - rewrite Hc, (Hf (S (clock w))), Hobj. simpl.
    set (w1 := set_objects (objects w) (tick (set_objects (objects w) (tick w)))).
    destruct (for_each_remove_ok pb (map_to_list objs).*1 w1 h objs)
      as (Hr & Hc' & Hf' & _ & Ho & He); [done | intros n; apply Hf | done |].
    destruct (for_each _ _ w1) as [r w2 evs]. simpl in *. subst r.
    rewrite Hc', Hf', (Hf (clock w2)), Ho. unfold S3.remove_bucket.
    rewrite lookup_insert_eq, delete_all_keys. simpl.
    rewrite delete_insert_eq.
    repeat split; try done.
    repeat constructor. apply Forall_app. split; [done|]. by repeat constructor.
  - rewrite delete_id by done. repeat split; try done. by repeat constructor.
Qed.


Section OnRaise.
Context (I : relation world) `{!PreOrder I}.

Lemma keeps_on_raise_keeps {A} E (m : M A) : keeps I E m -> keeps_on_raise I m.
Proof. intros H w. destruct (H w) as [Hi _]. by destruct (res (m w)). Qed.



End OnRaise.




Lemma remove_object_only_bucket pb k w :
  only_bucket pb w (set_objects (S3.remove_object pb k (objects w)).2 (tick w)).
Proof.
  intros b' Hne. unfold S3.remove_object. simpl.
  destruct (objects w !! pb); simpl; [|done]. by rewrite lookup_insert_ne.
Qed.

Lemma remove_bucket_only_bucket pb w :
  only_bucket pb w (set_objects (S3.remove_bucket pb (objects w)).2 (tick w)).
Proof.
  intros b' Hne. unfold S3.remove_bucket. simpl.
  destruct (objects w !! pb) as [objs|]; simpl; [|done].
  destruct (decide (objs = ∅)); simpl; [|done]. by rewrite lookup_delete_ne.
Qed.

Lemma unchanged_only_bucket {A} (serve : _ -> outcome A * _) pb w :
  (forall s, (serve s).2 = s) ->
  only_bucket pb w (set_objects (serve (objects w)).2 (tick w)).
Proof. intros H b' _. simpl. by rewrite H. Qed.

Ltac bucket_side :=
  intros;
  solve [ frame_side
        | apply remove_object_only_bucket
        | apply remove_bucket_only_bucket
        | apply unchanged_only_bucket;
            first [apply serve_bucket_exists | apply serve_list_objects ] ].

Lemma remove_bucket_only_bucket_keeps cfg b :
  keeps (only_bucket (_with_prefix cfg b)) any_event (remove_bucket cfg b).
Proof.
  unfold remove_bucket. unfold_prims.
  repeat (intros; first
    [ match goal with |- PreOrder _ => apply _ end
    | apply keeps_ret
    | apply keeps_emit; frame_side
    | apply keeps_call_serve; bucket_side
    | apply keeps_bind
    | apply keeps_try_except
    | apply keeps_for_each
    | match goal with
      | |- keeps _ _ (match ?x with _ => _ end) => destruct x
      end ]).
Qed.



Lemma remove_bucket_oracles cfg b :
  keeps same_oracles any_event (remove_bucket cfg b).
Proof. unfold remove_bucket. keeps_auto. Qed.


(** * Further properties of the client *)

(** X1: the prefix transform never maps two logical bucket names to the same
    physical bucket. *)
Theorem with_prefix_injective cfg b1 b2 :
  _with_prefix cfg b1 = _with_prefix cfg b2 <-> b1 = b2.
Proof. split; [apply with_prefix_inj | by intros ->]. Qed.

(** X2: in every run, whatever fails, [health], [put], [rm], [get],
    [obj_exist], [bucket_exists], [get_presigned_url] and [remove_bucket]
    send no bucket name to the service but the prefixed name of their
    bucket, and [copy] none but the prefixed names of its two buckets. *)
Theorem prefix_applied_once cfg w :
  Forall (addresses [_with_prefix cfg (or_empty (MINIO_HEALTH_BUCKET cfg))])
    (emitted (health cfg w))
  /\ (forall b k d t,
        Forall (addresses [_with_prefix cfg b]) (emitted (put cfg b k d t w)))
  /\ (forall b k t,
        Forall (addresses [_with_prefix cfg b]) (emitted (rm cfg b k t w)))
  /\ (forall b k t,
        Forall (addresses [_with_prefix cfg b]) (emitted (get cfg b k t w)))
  /\ (forall b k t,
        Forall (addresses [_with_prefix cfg b])
          (emitted (obj_exist cfg b k t w)))
  /\ (forall b,
        Forall (addresses [_with_prefix cfg b])
          (emitted (bucket_exists cfg b w)))
  /\ (forall b k x t,
        Forall (addresses [_with_prefix cfg b])
          (emitted (get_presigned_url cfg b k x t w)))
  /\ (forall b,
        Forall (addresses [_with_prefix cfg b])
          (emitted (remove_bucket cfg b w)))
  /\ (forall sb sk db dk,
        Forall (addresses [_with_prefix cfg sb; _with_prefix cfg db])
          (emitted (copy cfg sb sk db dk w))).
Proof.
  split; [apply health_addresses|].
  split; [intros; apply put_addresses|].
  split; [intros; apply rm_addresses|].
  split; [intros; apply get_addresses|].
  split; [intros; apply obj_exist_addresses|].
  split; [intros; apply bucket_exists_addresses|].
  split; [intros; apply get_presigned_url_addresses|].
  split; [intros; apply remove_bucket_addresses|].
  intros; apply copy_addresses.
Qed.

(** X3: [get], [obj_exist], [bucket_exists] and [get_presigned_url] never
    change the store, whatever fails and however often they retry. *)
Theorem readers_leave_store cfg w :
  (forall b k t, objects (final (get cfg b k t w)) = objects w)
  /\ (forall b k t, objects (final (obj_exist cfg b k t w)) = objects w)
  /\ (forall b, objects (final (bucket_exists cfg b w)) = objects w)
  /\ (forall b k x t,
        objects (final (get_presigned_url cfg b k x t w)) = objects w).
Proof.
  split; [intros; apply get_same_objects|].
  split; [intros; apply obj_exist_same_objects|].
  split; [intros; apply bucket_exists_same_objects|].
  intros; apply get_presigned_url_same_objects.
Qed.

(** X4: whatever fails, [put] and [rm] create, change or delete no object
    other than the one they are given, and [copy] none other than its
    destination; in particular [copy] leaves its source as it was. *)
Theorem writers_touch_one_object cfg w :
  (forall b k d t,
     only_object (_with_prefix cfg b) k w (final (put cfg b k d t w)))
  /\ (forall b k t,
        only_object (_with_prefix cfg b) k w (final (rm cfg b k t w)))
  /\ (forall sb sk db dk,
        only_object (_with_prefix cfg db) dk w
          (final (copy cfg sb sk db dk w))).
Proof.
  split; [intros; apply put_only_object|].
  split; [intros; apply rm_only_object|].
  intros; apply copy_only_object.
Qed.

(** X5: whatever fails, [remove_bucket] leaves every other bucket, with its
    objects, as it was. *)
Theorem remove_bucket_spares_others cfg b w :
  only_bucket (_with_prefix cfg b) w (final (remove_bucket cfg b w)).
Proof. apply remove_bucket_only_bucket_keeps. Qed.

(** X6: whenever [put] hands back a result, in whatever round, that result
    names the prefixed bucket and the key, and the store holds the bytes
    under them. *)
Theorem put_result_means_stored cfg b k data t w r :
  res (put cfg b k data t w) = Ret (Some r) ->
  r = S3.WriteResult (_with_prefix cfg b) k
  /\ object_at (final (put cfg b k data t w)) (_with_prefix cfg b) k
     = Some data.
Proof.
  rewrite put_unfold. intros H.
  apply (retry_success _ _ _ (put_attempt_returns cfg b k data)
           (fun _ => True)) in H as (w' & _ & Ha & ->); [|done..].
  destruct (put_attempt_sound cfg b k data w' _ Ha) as [Hx Hobj].
  split; [congruence | done].
Qed.

(** A healthy store: the result of [put] and the stored bytes. *)
Lemma put_result_means_stored_witness :
  res (put plain_cfg "docs" "b.txt" [x6f; x6b] None calm_world)
  = Ret (Some (S3.WriteResult "docs" "b.txt"))
  /\ object_at (final (put plain_cfg "docs" "b.txt" [x6f; x6b] None calm_world))
       "docs" "b.txt" = Some [x6f; x6b].
Proof.
  split; [vm_compute; reflexivity|].
  apply (put_result_means_stored plain_cfg "docs" "b.txt" [x6f; x6b] None
           calm_world (S3.WriteResult "docs" "b.txt")).
  vm_compute. reflexivity.
Defined.

(** X7: whenever [get] hands back bytes, they are the bytes the store holds
    under the prefixed bucket and the key. *)
Theorem get_result_is_stored cfg b k t w data :
  res (get cfg b k t w) = Ret (Some data) ->
  object_at w (_with_prefix cfg b) k = Some data.
Proof.
  rewrite get_unfold. intros H.
  apply (retry_success _ _ _ (get_attempt_returns cfg b k)
           (fun w' => objects w' = objects w)) in H as (w' & Ho & Ha & _);
    [| |done].
  2:{ intros w0 Hw0. unfold next_round.
    destruct (open_run cfg (final (get_attempt cfg b k w0)))
      as (_ & _ & _ & _ & -> & _).
    unfold get_attempt.
    assert (Hk : keeps same_objects any_event
                   (let* data := Minio.get_object_read (_with_prefix cfg b) k
                    in ret (Some (Some data)))) by frame_auto.
    destruct (Hk w0) as [-> _]. done. }
  destruct (get_attempt_sound cfg b k w' _ Ha) as (data' & Hx & Hobj).
  unfold object_at in *. rewrite <- Ho. congruence.
Qed.

(** A healthy store: [get] reads what is there. *)
Lemma get_result_is_stored_witness :
  res (get plain_cfg "docs" "a.txt" None calm_world) = Ret (Some [x68; x69])
  /\ object_at calm_world "docs" "a.txt" = Some [x68; x69].
Proof.
  split; [vm_compute; reflexivity|].
  apply (get_result_is_stored plain_cfg "docs" "a.txt" None calm_world).
  vm_compute. reflexivity.
Defined.



(** X9: [put], [get] and [get_presigned_url] hand back no result exactly
    when every one of their 3, 1 and 10 attempts fails; a single attempt
    that goes through is enough for a result. *)
Theorem no_result_iff_all_attempts_fail cfg b k data expires t w :
  (res (put cfg b k data t w) = Ret None
   <-> all_fail cfg (put_attempt cfg b k data) 3 w = true)
  /\ (res (get cfg b k t w) = Ret None
      <-> all_fail cfg (get_attempt cfg b k) 1 w = true)
  /\ (res (get_presigned_url cfg b k expires t w) = Ret None
      <-> all_fail cfg (presign_attempt cfg b k expires) 10 w = true).
Proof.
  rewrite put_unfold, get_unfold, get_presigned_url_unfold.
  split; [apply retry_none_iff, put_attempt_returns|].
  split; [apply retry_none_iff, get_attempt_returns|].
  apply retry_none_iff, presign_attempt_returns.
Qed.

(** X10: with a connected client and no remote call failing, [obj_exist]
    answers [True] when the object is in the store and [False] when it is
    not, in particular for a key or a bucket that was never created. *)
Theorem obj_exist_decides cfg b k t w :
  connected w -> reliable w ->
  res (obj_exist cfg b k t w)
  = Ret (Some (bool_decide (is_Some (object_at w (_with_prefix cfg b) k)))).
Proof. apply obj_exist_exact. Qed.

(** A key that was never created: [False], without raising. *)
Lemma obj_exist_decides_witness :
  connected calm_world /\ reliable calm_world
  /\ res (obj_exist plain_cfg "docs" "never.txt" None calm_world)
     = Ret (Some false).
Proof.
  split; [by eexists|]. split; [by intros n|].
  apply (obj_exist_decides plain_cfg "docs" "never.txt" None calm_world).
  - by eexists.
  - by intros n.
Defined.

(** X11: [obj_exist] and [bucket_exists] never answer [True] for something
    that is not there, whatever fails. *)
Theorem exists_true_is_sound cfg w :
  (forall b k t,
     res (obj_exist cfg b k t w) = Ret (Some true) ->
     is_Some (object_at w (_with_prefix cfg b) k))
  /\ (forall b,
        res (bucket_exists cfg b w) = Ret (Some true) ->
        is_Some (objects w !! _with_prefix cfg b)).
Proof.
  split; [intros; by eapply obj_exist_true_present|].
  intros; by eapply bucket_exists_true_present.
Qed.

(** X12: with a connected client whose next call does not fail,
    [bucket_exists] answers [True] exactly when the prefixed bucket is in
    the store. *)
Theorem bucket_exists_decides cfg b w :
  connected w -> fault w (clock w) = None ->
  res (bucket_exists cfg b w)
  = Ret (Some (bool_decide (is_Some (objects w !! _with_prefix cfg b)))).
Proof.
  unfold bucket_exists, connected.
  generalize (_with_prefix cfg b) as pb. intros pb.
  destruct w as [s c n f o rf]. simpl. intros [h ->] Hf.
  unfold_run. unfold S3.bucket_exists. simpl. rewrite Hf.
  by destruct (s !! pb) eqn:Hb.
Qed.

(** A bucket that is there, under a prefix that is not. *)
Lemma bucket_exists_decides_witness :
  connected calm_world /\ fault calm_world (clock calm_world) = None
  /\ res (bucket_exists plain_cfg "docs" calm_world) = Ret (Some true)
  /\ res (bucket_exists prefixed_cfg "docs" calm_world) = Ret (Some false).
Proof.
  split; [by eexists|]. split; [reflexivity|]. split.
  - apply (bucket_exists_decides plain_cfg "docs" calm_world);
      [by eexists | reflexivity].
  - apply (bucket_exists_decides prefixed_cfg "docs" calm_world);
      [by eexists | reflexivity].
Defined.

(** X13: with a connected client, no remote call failing and names the
    client accepts, [copy] of an object that exists onto another object
    returns [True], a following [get] on the destination returns the bytes
    of the source, and the source still holds them. *)
Theorem copy_then_get cfg sb sk db dk t w data :
  connected w -> reliable w ->
  accepted_bucket (_with_prefix cfg sb) = true -> accepted_key sk = true ->
  accepted_bucket (_with_prefix cfg db) = true -> accepted_key dk = true ->
  object_at w (_with_prefix cfg sb) sk = Some data ->
  (_with_prefix cfg db, dk) <> (_with_prefix cfg sb, sk) ->
  let r := copy cfg sb sk db dk w in
  res r = Ret true
  /\ res (get cfg db dk t (final r)) = Ret (Some data)
  /\ object_at (final r) (_with_prefix cfg sb) sk = Some data.
Proof.
  intros Hc Hf _ _ _ _ Hsrc Hne r.
  destruct (copy_ok cfg sb sk db dk w data Hc Hf Hsrc Hne)
    as (Hr & Hobj & Hc' & Hf' & _).
  split; [done|]. split.
  - apply get_present; [apply Hf' | done | done].
  - rewrite <- Hsrc. apply copy_only_object. congruence.
Qed.

(** Copying [docs/a.txt] to a bucket that does not exist yet. *)
Lemma copy_then_get_witness :
  connected calm_world /\ reliable calm_world
  /\ accepted_bucket (_with_prefix plain_cfg "docs") = true
  /\ accepted_key "a.txt" = true
  /\ accepted_bucket (_with_prefix plain_cfg "archive") = true
  /\ accepted_key "b.txt" = true
  /\ object_at calm_world "docs" "a.txt" = Some [x68; x69]
  /\ (_with_prefix plain_cfg "archive", "b.txt")
     <> (_with_prefix plain_cfg "docs", "a.txt")
  /\ res (get plain_cfg "archive" "b.txt" None
            (final (copy plain_cfg "docs" "a.txt" "archive" "b.txt" calm_world)))
     = Ret (Some [x68; x69]).
Proof.
  split; [by eexists|]. split; [by intros n|].
  do 5 (split; [reflexivity|]). split; [done|].
  apply (copy_then_get plain_cfg "docs" "a.txt" "archive" "b.txt" None
           calm_world [x68; x69]).
  - by eexists.
  - by intros n.
  - reflexivity.
  - reflexivity.
  - reflexivity.
  - reflexivity.
  - reflexivity.
  - done.
Defined.

(** X14: with a connected client, no remote call failing, a bucket name
    the client accepts and stored keys it accepts, [remove_bucket] removes
    the bucket with all its objects, raises and logs nothing, and
    [obj_exist] then answers [False] for every key of the bucket; on a
    bucket that does not exist it changes nothing. *)
Theorem remove_bucket_removes_all cfg b w :
  connected w -> reliable w ->
  accepted_bucket (_with_prefix cfg b) = true ->
  forallb accepted_key (stored_keys w (_with_prefix cfg b)) = true ->
  let r := remove_bucket cfg b w in
  res r = Ret tt
  /\ objects (final r) = delete (_with_prefix cfg b) (objects w)
  /\ Forall is_call (emitted r)
  /\ (forall k t, res (obj_exist cfg b k t (final r)) = Ret (Some false))
  /\ (objects w !! _with_prefix cfg b = None -> objects (final r) = objects w).
Proof.
  intros Hc Hf _ _ r. subst r.
  destruct (remove_bucket_ok cfg b w Hc Hf) as (Hr & Ho & He).
  destruct (remove_bucket_quiet cfg b w) as [[Hconn _] _].
  destruct (remove_bucket_oracles cfg b w) as [[Hfault _] _].
  split; [done|]. split; [done|]. split; [done|]. split.
  - intros k t. rewrite obj_exist_exact.
    + unfold object_at. rewrite Ho, lookup_delete_eq. done.
    + unfold connected. by rewrite Hconn.
    + intros n. rewrite Hfault. apply Hf.
  - intros Hb. rewrite Ho. by apply delete_id.
Qed.

(** Tearing down [docs]: its object is gone. *)
Lemma remove_bucket_removes_all_witness :
  connected calm_world /\ reliable calm_world
  /\ accepted_bucket (_with_prefix plain_cfg "docs") = true
  /\ forallb accepted_key (stored_keys calm_world (_with_prefix plain_cfg "docs"))
     = true
  /\ res (obj_exist plain_cfg "docs" "a.txt" None
            (final (remove_bucket plain_cfg "docs" calm_world)))
     = Ret (Some false).
Proof.
  split; [by eexists|]. split; [by intros n|].
  split; [reflexivity|]. split; [vm_compute; reflexivity|].
  apply (remove_bucket_removes_all plain_cfg "docs" calm_world).
  - by eexists.
  - by intros n.
  - reflexivity.
  - vm_compute. reflexivity.
Defined.



(** X16: with a connected client whose next call does not fail, and a
    bucket name and a key the client accepts, [rm] on a bucket that exists
    deletes the key and raises and logs nothing, whether or not the key was
    there; on a bucket that does not exist it logs the error and changes
    nothing. *)
Theorem rm_outcomes cfg b k t w :
  connected w -> fault w (clock w) = None ->
  accepted_bucket (_with_prefix cfg b) = true -> accepted_key k = true ->
  let r := rm cfg b k t w in
  (forall objs,
     objects w !! _with_prefix cfg b = Some objs ->
     objects (final r) = <[_with_prefix cfg b := delete k objs]> (objects w)
     /\ Forall is_call (emitted r))
  /\ (objects w !! _with_prefix cfg b = None ->
      objects (final r) = objects w /\ Exists is_log (emitted r)).
Proof.
  intros Hc Hf _ _ r. split.
  - intros objs Hb. by apply rm_present_bucket.
  - intros Hb. by apply rm_missing_bucket.
Qed.

(** Deleting a key that is not there: no log record. *)
Lemma rm_outcomes_witness :
  connected calm_world /\ fault calm_world (clock calm_world) = None
  /\ accepted_bucket (_with_prefix plain_cfg "docs") = true
  /\ accepted_key "never.txt" = true
  /\ Forall is_call (emitted (rm plain_cfg "docs" "never.txt" None calm_world)).
Proof.
  split; [by eexists|]. do 3 (split; [reflexivity|]).
  eapply (rm_outcomes plain_cfg "docs" "never.txt" None calm_world).
  - by eexists.
  - reflexivity.
  - reflexivity.
  - reflexivity.
  - vm_compute. reflexivity.
Defined.

(** X17: with a connected client, no remote call failing and a prefixed
    health bucket name the client accepts, [health] stores its fingerprint
    under the name "txtxtxtxt1" in that bucket, creating the bucket when
    needed, and returns the upload result. *)
Theorem health_writes_fingerprint cfg w :
  let pb := _with_prefix cfg (or_empty (MINIO_HEALTH_BUCKET cfg)) in
  connected w -> reliable w ->
  accepted_bucket pb = true ->
  let r := health cfg w in
  res r = Ret (S3.WriteResult pb "txtxtxtxt1")
  /\ object_at (final r) pb "txtxtxtxt1" = Some [x5f; x74; x40; x40; x40; x31]
  /\ Forall is_call (emitted r).
Proof.
  unfold health, object_at, connected, reliable.
  generalize (_with_prefix cfg (or_empty (MINIO_HEALTH_BUCKET cfg))) as pb.
  intros pb. destruct w as [s c n f o rf]. simpl. intros [h ->] Hf _.
  unfold_run. unfold S3.bucket_exists, S3.make_bucket, S3.put_object.
  reliable_cases Hf.
  all: rewrite ?lookup_insert_eq; simpl; rewrite ?lookup_insert_eq.
  all: repeat split; try done; by repeat constructor.
Qed.

(** The probe on a store without the health bucket. *)
Lemma health_writes_fingerprint_witness :
  connected calm_world /\ reliable calm_world
  /\ accepted_bucket
       (_with_prefix prefixed_cfg (or_empty (MINIO_HEALTH_BUCKET prefixed_cfg)))
     = true
  /\ object_at (final (health prefixed_cfg calm_world)) "rag-health"
       "txtxtxtxt1" = Some [x5f; x74; x40; x40; x40; x31].
Proof.
  split; [by eexists|]. split; [by intros n|]. split; [reflexivity|].
  apply (health_writes_fingerprint prefixed_cfg calm_world).
  - by eexists.
  - by intros n.
  - reflexivity.
Defined.

(** X18: construction never raises.  It builds one client from the
    configured host and credentials, without transport security; when that
    fails the failure is logged and the instance holds no connection;
    otherwise it holds the new handle.  The store is not touched. *)
Theorem construction_never_aborts cfg w :
  let r := __init__ cfg w in
  res r = Ret tt
  /\ emitted r =
       Connect (MINIO_host cfg) (MINIO_user cfg) (MINIO_password cfg) false
       :: match refuse w (opened w) with
          | Some e => [Raised e;
                       Log true ("Fail to connect " ++ MINIO_host cfg ++ " ")]
          | None => []
          end
  /\ conn (final r) =
       match refuse w (opened w) with
       | Some _ => None
       | None => Some (opened w)
       end
  /\ objects (final r) = objects w.
Proof.
  unfold __init__. unfold_run.
  destruct w as [s c n f o rf]; simpl; destruct (rf o); simpl; done.
Qed.

(** X19: an instance without a connection recovers by itself: when no
    remote call fails, a client can be built and the client accepts the
    prefixed bucket name and the key, [put] fails its first attempt, logs
    it, reconnects, pauses one second, and stores the object in its second
    attempt. *)
Theorem put_recovers_from_no_connection cfg b k data t w :
  conn w = None -> reliable w -> refuse w (opened w) = None ->
  accepted_bucket (_with_prefix cfg b) = true -> accepted_key k = true ->
  let r := put cfg b k data t w in
  res r = Ret (Some (S3.WriteResult (_with_prefix cfg b) k))
  /\ object_at (final r) (_with_prefix cfg b) k = Some data
  /\ conn (final r) = Some (opened w)
  /\ exists e calls,
       Forall is_call calls
       /\ emitted r =
            [Raised e; Log true ("Fail to put " ++ b ++ "/" ++ k ++ ":");
             Connect (MINIO_host cfg) (MINIO_user cfg) (MINIO_password cfg)
               false;
             Sleep 1] ++ calls.
Proof.
  intros Hc Hf Hrf _ _. rewrite put_unfold. cbv zeta.
  destruct (put_attempt_unconnected cfg b k data w Hc) as [e Ha].
  destruct (loop_step_fail cfg ("Fail to put " ++ b ++ "/" ++ k ++ ":")
              (put_attempt cfg b k data) 2 w e) as (-> & -> & ->);
    [by rewrite Ha|].
  rewrite Ha. simpl.
  destruct (open_run cfg w) as (_ & Hev & Hc' & _).
  destruct (open_oracles cfg w) as [[Hf' _] _].
  rewrite Hrf in Hc', Hev. rewrite Hc in Hev. simpl in Hev.
  set (w' := final (__open__ cfg w)) in *.
  destruct (put_attempt_ok cfg b k data w') as (Ha' & Hobj & Hconn & Hcalls).
  { unfold connected. by rewrite Hc'. }
  { intros n. rewrite Hf'. apply Hf. }
  destruct (loop_step_ok cfg ("Fail to put " ++ b ++ "/" ++ k ++ ":")
              (put_attempt cfg b k data) 1 w' _ Ha') as (-> & -> & ->).
  rewrite Hev, Hconn, Hc'. repeat split; try done.
  exists e, (emitted (put_attempt cfg b k data w')). split; [done|].
  done.
Qed.

(** The first [put] of an instance whose construction had failed. *)
Lemma put_recovers_from_no_connection_witness :
  conn unconnected_world = None /\ reliable unconnected_world
  /\ refuse unconnected_world (opened unconnected_world) = None
  /\ accepted_bucket (_with_prefix plain_cfg "docs") = true
  /\ accepted_key "b.txt" = true
  /\ object_at
       (final (put plain_cfg "docs" "b.txt" [x6f; x6b] None unconnected_world))
       "docs" "b.txt" = Some [x6f; x6b].
Proof.
  split; [reflexivity|]. split; [by intros n|]. do 3 (split; [reflexivity|]).
  apply (put_recovers_from_no_connection plain_cfg "docs" "b.txt" [x6f; x6b]
           None unconnected_world).
  - reflexivity.
  - by intros n.
  - reflexivity.
  - reflexivity.
  - reflexivity.
Defined.

(** X20: with an empty prefix, a connected client, no remote call failing
    and names the client accepts, [move] of an object that exists to another
    place returns [True]; afterwards [get] on the destination returns the
    bytes and [get] on the source returns nothing. *)
Theorem move_transfers cfg sb sk db dk t w data :
  unprefixed cfg -> connected w -> reliable w ->
  accepted_bucket sb = true -> accepted_key sk = true ->
  accepted_bucket db = true -> accepted_key dk = true ->
  object_at w sb sk = Some data ->
  (sb, sk) <> (db, dk) ->
  let r := move cfg sb sk db dk w in
  res r = Ret true
  /\ res (get cfg db dk t (final r)) = Ret (Some data)
  /\ res (get cfg sb sk t (final r)) = Ret None.
Proof.
  intros Hp Hc Hf _ _ _ _ Hsrc Hne r. subst r.
  pose proof (with_prefix_unprefixed cfg sb Hp) as Hsb.
  pose proof (with_prefix_unprefixed cfg db Hp) as Hdb.
  pose proof (move_run cfg sb sk db dk w) as Hm. cbv zeta in Hm.
  rewrite Hsb, Hdb in Hm.
  destruct (copy_ok cfg sb sk db dk w data Hc Hf) as (Hr & Hobj & Hc' & Hf' & _);
    [by rewrite Hsb | rewrite Hsb, Hdb; congruence|].
  rewrite Hdb in Hobj.
  destruct Hm as [(_ & Hres & Hfin & _)|(Hfalse & _)]; [|congruence].
  set (c := copy cfg sb sk db dk w) in *.
  assert (Hsrc' : object_at (final c) sb sk = Some data).
  { rewrite <- Hsrc. pose proof (copy_only_object cfg sb sk db dk w) as [Ho _].
    apply Ho. rewrite Hdb. congruence. }
  assert (Hb : exists objs, objects (final c) !! sb = Some objs).
  { unfold object_at in Hsrc'. destruct (objects (final c) !! sb); [eauto|done]. }
  destruct Hb as [objs Hb].
  destruct (rm_present_bucket cfg sb sk None (final c) objs) as [_ Hcalls];
    [done | apply Hf' | by rewrite Hsb |].
  destruct (rm_only_object cfg sb sk None (final c)) as [Hframe _].
  destruct (rm_quiet cfg sb sk None (final c)) as [[Hconn _] _].
  destruct (rm_oracles cfg sb sk None (final c)) as [[Hfault _] _].
  rewrite Hsb in Hframe.
  split; [done|]. rewrite Hfin. split.
  - apply get_present.
    + rewrite Hfault. apply Hf'.
    + unfold connected in *. by rewrite Hconn.
    + rewrite Hdb, Hframe; [done | congruence].
  - apply get_absent. rewrite Hsb.
    rewrite <- Hsb at 2. apply rm_clean_deletes.
    intros H. apply Exists_exists in H as (ev & Hin & Hev).
    rewrite Forall_forall in Hcalls. specialize (Hcalls ev Hin). by destruct ev.
Qed.

(** Moving [docs/a.txt] to [archive/b.txt]. *)
Lemma move_transfers_witness :
  unprefixed plain_cfg /\ connected calm_world /\ reliable calm_world
  /\ accepted_bucket "docs" = true /\ accepted_key "a.txt" = true
  /\ accepted_bucket "archive" = true /\ accepted_key "b.txt" = true
  /\ object_at calm_world "docs" "a.txt" = Some [x68; x69]
  /\ ("docs", "a.txt") <> ("archive", "b.txt")
  /\ res (get plain_cfg "archive" "b.txt" None
            (final (move plain_cfg "docs" "a.txt" "archive" "b.txt" calm_world)))
     = Ret (Some [x68; x69]).
Proof.
  split; [reflexivity|]. split; [by eexists|]. split; [by intros n|].
  do 5 (split; [reflexivity|]). split; [done|].
  apply (move_transfers plain_cfg "docs" "a.txt" "archive" "b.txt" None
           calm_world [x68; x69]).
  - reflexivity.
  - by eexists.
  - by intros n.
  - reflexivity.
  - reflexivity.
  - reflexivity.
  - reflexivity.
  - reflexivity.
  - done.
Defined.
